(** * Rendering/Mesh/VertexAttributeAccessors.h

    Typed, bounds-checked accessors over an interleaved vertex buffer.

    The header is embedded as functions in a small state monad: the state is
    the heap (the [MeshVertexData] objects an accessor refers to, and the
    bytes of memory their [data()] pointers point into), a computation can
    return, throw a C++ exception or run into undefined behaviour, and every
    byte it loads or stores is recorded in a log. *)

From stdpp Require Import gmap strings list.
From Stdlib Require Import NArith Lia.
From Stdlib.Strings Require Import Byte.

Local Open Scope N_scope.

(** ** Machine data *)

(** [size_t] is taken to be 64 bits wide; unsigned arithmetic in it wraps. *)
Definition SIZE_WIDTH : N := 64.

Definition size_t_mul (a b : N) : N := (a * b) mod 2 ^ SIZE_WIDTH.

(** A [float] is its object representation: four bytes, in memory order.
    Copying a float copies these bytes, whatever number they denote. *)
Record float := Float { byte0 : byte; byte1 : byte; byte2 : byte; byte3 : byte }.

Definition sizeof_float : N := 4.

(** Geometry::Vec3 and Geometry::Vec2 (float vectors). *)
Record Vec3 := mkVec3 { vec3_x : float; vec3_y : float; vec3_z : float }.
Record Vec2 := mkVec2 { vec2_x : float; vec2_y : float }.

(** ** The collaborators the header includes

    VertexAttribute.h, VertexDescription.h and MeshVertexData.h are not part
    of the header; the records below carry what the accessors ask of them. *)

Inductive ComponentEncoding := Float32 | UNorm8 | OtherEncoding (tag : N).

#[global] Instance ComponentEncoding_eq_dec : EqDecision ComponentEncoding.
Proof. solve_decision. Defined.

Record VertexAttribute := {
  getNameId : string;
  getOffset : N;
  getNumValues : N;
  getDataType : ComponentEncoding
}.

Record VertexDescription := {
  getAttributes : list VertexAttribute;
  getVertexSize : N
}.

(** [data] is the address of vertex 0 in [memory]. *)
Record MeshVertexData := {
  getVertexDescription : VertexDescription;
  getVertexCount : N;
  data : N
}.

(** ** Heap, outcomes and the monad *)

Record world := World {
  objects : gmap N MeshVertexData;
  memory : gmap N byte
}.

Definition set_memory (w : world) (m : gmap N byte) : world :=
  World (objects w) m.

Inductive event := Load (a : N) | Store (a : N) (b : byte).

Definition event_addr (e : event) : N :=
  match e with Load a => a | Store a _ => a end.

Definition is_load (e : event) : bool :=
  match e with Load _ => true | Store _ _ => false end.

(** Why a factory gave up; both are thrown as std::invalid_argument. *)
Inductive create_failure :=
  | InvalidAttribute (name : string)
  | UnsupportedEncoding (name : string).

Inductive exception :=
  | RangeError (index count : N)
  | InvalidArgument (why : create_failure).

Inductive outcome (A : Type) :=
  | Ok (a : A)
  | Throw (e : exception)
  | Undefined.
Arguments Ok {A} a.
Arguments Throw {A} e.
Arguments Undefined {A}.

Record result (A : Type) := Result {
  out : outcome A;
  final : world;
  log : list event
}.
Arguments Result {A} out final log.
Arguments out {A} r.
Arguments final {A} r.
Arguments log {A} r.

Definition M (A : Type) : Type := world → result A.

#[global] Instance M_ret : MRet M := λ A a w, Result (Ok a) w [].

#[global] Instance M_bind : MBind M := λ A B f m w,
  let r := m w in
  match out r with
  | Ok a => let r' := f a (final r) in
            Result (out r') (final r') (log r ++ log r')
  | Throw e => Result (Throw e) (final r) (log r)
  | Undefined => Result Undefined (final r) (log r)
  end.

Definition throw {A} (e : exception) : M A := λ w, Result (Throw e) w [].

(** Following a [MeshVertexData &]; a dangling reference is undefined. *)
Definition deref (r : N) : M MeshVertexData := λ w,
  match objects w !! r with
  | Some vd => Result (Ok vd) w []
  | None => Result Undefined w []
  end.

(** One byte of memory; an address outside every allocation is undefined. *)
Definition load_byte (a : N) : M byte := λ w,
  match memory w !! a with
  | Some b => Result (Ok b) w [Load a]
  | None => Result Undefined w [Load a]
  end.

Definition store_byte (a : N) (b : byte) : M unit := λ w,
  match memory w !! a with
  | Some _ => Result (Ok tt) (set_memory w (<[a:=b]> (memory w))) [Store a b]
  | None => Result Undefined w [Store a b]
  end.

(** Reading and writing [*p] for a [float * p]. *)
Definition load_float (p : N) : M float :=
  b0 ← load_byte p;
  b1 ← load_byte (p + 1);
  b2 ← load_byte (p + 2);
  b3 ← load_byte (p + 3);
  mret (Float b0 b1 b2 b3).

Definition store_float (p : N) (f : float) : M unit :=
  store_byte p (byte0 f);;
  store_byte (p + 1) (byte1 f);;
  store_byte (p + 2) (byte2 f);;
  store_byte (p + 3) (byte3 f).

(** [&v[k]] for a [float * v]. *)
Definition float_index (v k : N) : N := v + k * sizeof_float.

(** ** class VertexAttributeAccessor *)

(** [vData] is the reference member; the other three members are [const]. *)
Record VertexAttributeAccessor := {
  vData : N;
  attribute : VertexAttribute;
  vertexSize : N;
  dataPtr : N
}.

(** The constructor. *)
Definition new_VertexAttributeAccessor (_vData : N) (_attribute : VertexAttribute)
  : M VertexAttributeAccessor :=
  vd ← deref _vData;
  mret {| vData := _vData;
          attribute := _attribute;
          vertexSize := getVertexSize (getVertexDescription vd);
          dataPtr := data vd + getOffset _attribute |}.

(** Modelled from the spec: the body of [throwRangeError] is not in the
    header; it fails with a RangeError carrying the offending index and the
    current vertex count. *)
Definition throwRangeError (this : VertexAttributeAccessor) (index : N) : M unit :=
  vd ← deref (vData this);
  throw (RangeError index (getVertexCount vd)).

Definition assertRange (this : VertexAttributeAccessor) (index : N) : M unit :=
  vd ← deref (vData this);
  if getVertexCount vd <=? index then throwRangeError this index else mret tt.

Definition checkRange (this : VertexAttributeAccessor) (index : N) : M bool :=
  vd ← deref (vData this);
  mret (index <? getVertexCount vd).

Definition getAttribute (this : VertexAttributeAccessor) : M VertexAttribute :=
  mret (attribute this).

Definition _ptr (this : VertexAttributeAccessor) (index : N) : M N :=
  mret (dataPtr this + size_t_mul index (vertexSize this)).

(** ** class PositionAttributeAccessor *)

Record PositionAttributeAccessor := {
  position_base :> VertexAttributeAccessor
}.

Definition getPosition (this : PositionAttributeAccessor) (index : N) : M Vec3 :=
  assertRange this index;;
  v ← _ptr this index;
  x ← load_float (float_index v 0);
  y ← load_float (float_index v 1);
  z ← load_float (float_index v 2);
  mret (mkVec3 x y z).

Definition setPosition (this : PositionAttributeAccessor) (index : N) (p : Vec3)
  : M unit :=
  assertRange this index;;
  v ← _ptr this index;
  store_float (float_index v 0) (vec3_x p);;
  store_float (float_index v 1) (vec3_y p);;
  store_float (float_index v 2) (vec3_z p).

(** ** class TexCoordAttributeAccessor *)

Record TexCoordAttributeAccessor := {
  texcoord_base :> VertexAttributeAccessor
}.

Definition getCoordinate (this : TexCoordAttributeAccessor) (index : N) : M Vec2 :=
  assertRange this index;;
  v ← _ptr this index;
  x ← load_float (float_index v 0);
  y ← load_float (float_index v 1);
  mret (mkVec2 x y).

Definition setCoordinate (this : TexCoordAttributeAccessor) (index : N) (p : Vec2)
  : M unit :=
  assertRange this index;;
  v ← _ptr this index;
  store_float (float_index v 0) (vec2_x p);;
  store_float (float_index v 1) (vec2_y p).

(** ** Factories *)

(** Modelled from the spec: the layout descriptor's lookup is declared in
    VertexDescription.h, which is not part of the header.  The layout is an
    ordered mapping from attribute name to metadata; looking a name up gives
    the first entry of that name, or nothing. *)
Definition lookup_attribute (name : string) (vdesc : VertexDescription)
  : option VertexAttribute :=
  snd <$> list_find (λ a, getNameId a = name) (getAttributes vdesc).

(** Modelled from the spec: a concrete strategy, not in the header, supports
    a (component count, component encoding) pair, and matches the attributes
    declared with that pair. *)
Definition matches (attr : VertexAttribute) (s : N * ComponentEncoding) : Prop :=
  getNumValues attr = s.1 ∧ getDataType attr = s.2.

#[global] Instance matches_dec attr s : Decision (matches attr s).
Proof. unfold matches. apply _. Defined.

(** Modelled from the spec: the bodies of the [create] factories are in the
    implementation file, not in the header.  Following the five steps of the
    dispatch algorithm: look the name up (InvalidAttribute if absent),
    inspect count and encoding, take the first strategy of the family's
    ordered list that matches (UnsupportedEncoding if none), and build the
    accessor over the buffer and the metadata found.  The result is the
    position of the strategy chosen and the accessor. *)
Definition create (known : list (N * ComponentEncoding)) (_vData : N) (name : string)
  : M (nat * VertexAttributeAccessor) :=
  vd ← deref _vData;
  match lookup_attribute name (getVertexDescription vd) with
  | None => throw (InvalidArgument (InvalidAttribute name))
  | Some attr =>
      match list_find (matches attr) known with
      | None => throw (InvalidArgument (UnsupportedEncoding name))
      | Some (k, _) =>
          acc ← new_VertexAttributeAccessor _vData attr;
          mret (k, acc)
      end
  end.

(** Modelled from the spec: the one matcher of the position family, three
    32-bit floats. *)
Definition position_encodings : list (N * ComponentEncoding) := [(3, Float32)].

(** Modelled from the spec: the one matcher of the texture-coordinate family,
    two 32-bit floats. *)
Definition texcoord_encodings : list (N * ComponentEncoding) := [(2, Float32)].

(** Modelled from the spec: the encodings of a color, four floats or four
    bytes. *)
Definition color_encodings : list (N * ComponentEncoding) :=
  [(4, Float32); (4, UNorm8)].

(** Modelled from the spec: [PositionAttributeAccessor::create], declared in
    the header and defined elsewhere. *)
Definition PositionAttributeAccessor_create (_vData : N) (name : string)
  : M PositionAttributeAccessor :=
  r ← create position_encodings _vData name;
  mret {| position_base := r.2 |}.

(** Modelled from the spec: [TexCoordAttributeAccessor::create], declared in
    the header and defined elsewhere. *)
Definition TexCoordAttributeAccessor_create (_vData : N) (name : string)
  : M TexCoordAttributeAccessor :=
  r ← create texcoord_encodings _vData name;
  mret {| texcoord_base := r.2 |}.

(** Modelled from the spec: [ColorAttributeAccessor::create], declared in the
    header and defined elsewhere; the accessor comes with the position of the
    encoding strategy chosen. *)
Definition ColorAttributeAccessor_create (_vData : N) (name : string)
  : M (nat * VertexAttributeAccessor) :=
  create color_encodings _vData name.

(** Modelled from the spec: [NormalAttributeAccessor::create], declared in
    the header and defined elsewhere.  The spec leaves the encodings of a
    normal open; they are an argument. *)
Definition NormalAttributeAccessor_create (normal_encodings : list (N * ComponentEncoding))
  (_vData : N) (name : string) : M (nat * VertexAttributeAccessor) :=
  create normal_encodings _vData name.

(** ** Memory as a value: what loads see and stores leave behind *)

Definition read_float (m : gmap N byte) (p : N) : option float :=
  b0 ← m !! p;
  b1 ← m !! (p + 1);
  b2 ← m !! (p + 2);
  b3 ← m !! (p + 3);
  Some (Float b0 b1 b2 b3).

Definition write_float (p : N) (f : float) (m : gmap N byte) : gmap N byte :=
  <[p + 3 := byte3 f]> (<[p + 2 := byte2 f]> (<[p + 1 := byte1 f]> (<[p := byte0 f]> m))).

Definition float_loads (p : N) : list event :=
  [Load p; Load (p + 1); Load (p + 2); Load (p + 3)].

Definition float_stores (p : N) (f : float) : list event :=
  [Store p (byte0 f); Store (p + 1) (byte1 f);
   Store (p + 2) (byte2 f); Store (p + 3) (byte3 f)].

(** The addresses [a, a + n). *)
Definition within (a n x : N) : Prop := a ≤ x < a + n.

Definition byte_range (a n : N) : list N :=
  (λ k, a + N.of_nat k) <$> seq 0 (N.to_nat n).

Definition allocated (m : gmap N byte) (a n : N) : Prop :=
  Forall (λ x, is_Some (m !! x)) (byte_range a n).

#[global] Instance allocated_dec m a n : Decision (allocated m a n).
Proof. unfold allocated. apply _. Defined.

(** Where the attribute of vertex [index] starts, as [_ptr] computes it. *)
Definition attribute_address (this : VertexAttributeAccessor) (index : N) : N :=
  dataPtr this + size_t_mul index (vertexSize this).

Definition touched {A} (r : result A) : list N := event_addr <$> log r.

(** [index] is a vertex of the buffer [this] refers to, as [w] has it. *)
Definition in_range (w : world) (this : VertexAttributeAccessor) (index : N) : Prop :=
  ∃ vd, objects w !! vData this = Some vd ∧ index < getVertexCount vd.

#[global] Instance in_range_dec w this index : Decision (in_range w this index).
Proof.
  unfold in_range. destruct (objects w !! vData this) as [vd|].
  - destruct (decide (index < getVertexCount vd)); [left; eauto|right].
    intros (vd' & [= <-] & ?). done.
  - right. intros (vd' & [=] & ?).
Defined.

(** [this] views an [n]-byte attribute of the buffer [vd], live in [w] and
    unaltered since [this] was built: base pointer and stride are the
    buffer's, the attribute lies inside a vertex record, and the byte size of
    the storage is a [size_t]. *)
Record views (w : world) (this : VertexAttributeAccessor) (vd : MeshVertexData)
    (n : N) : Prop := {
  views_live : objects w !! vData this = Some vd;
  views_stride : vertexSize this = getVertexSize (getVertexDescription vd);
  views_base : dataPtr this = data vd + getOffset (attribute this);
  views_fits : getOffset (attribute this) + n ≤ vertexSize this;
  views_size : getVertexCount vd * vertexSize this < 2 ^ SIZE_WIDTH
}.

(** What a computation may touch: it leaves the objects alone, changes no
    byte outside [P] and logs no access outside [P]. *)
Definition confined {A} (P : N → Prop) (m : M A) : Prop :=
  ∀ w, objects (final (m w)) = objects w
       ∧ (∀ a, ¬ P a → memory (final (m w)) !! a = memory w !! a)
       ∧ Forall (λ e, P (event_addr e)) (log (m w)).

(** A computation that changes nothing and only loads. *)
Definition read_only {A} (m : M A) : Prop :=
  ∀ w, final (m w) = w ∧ Forall (λ e, is_load e = true) (log (m w)).

(** ** A mesh to run the accessors on

    Ten vertices of 32 bytes: position at offset 0 (three floats), color at
    offset 12 (four bytes), texture coordinate at offset 16 (two floats). *)

Definition zeroed (a n : N) : gmap N byte :=
  list_to_map ((λ x, (x, x00)) <$> byte_range a n).

Definition demo_position : VertexAttribute :=
  {| getNameId := "sg_Position"; getOffset := 0; getNumValues := 3; getDataType := Float32 |}.
Definition demo_color : VertexAttribute :=
  {| getNameId := "sg_Color"; getOffset := 12; getNumValues := 4; getDataType := UNorm8 |}.
Definition demo_texcoord : VertexAttribute :=
  {| getNameId := "sg_TexCoord0"; getOffset := 16; getNumValues := 2; getDataType := Float32 |}.

Definition demo_description : VertexDescription :=
  {| getAttributes := [demo_position; demo_color; demo_texcoord]; getVertexSize := 32 |}.

Definition demo_mesh : MeshVertexData :=
  {| getVertexDescription := demo_description; getVertexCount := 10; data := 4096 |}.

Definition empty_mesh : MeshVertexData :=
  {| getVertexDescription := demo_description; getVertexCount := 0; data := 4096 |}.

(** Object 1 is the mesh, object 2 a mesh without vertices. *)
Definition demo_world : world :=
  World (<[1 := demo_mesh]> (<[2 := empty_mesh]> ∅)) (zeroed 4096 320).

Definition accessor_of (r : N) (vd : MeshVertexData) (attr : VertexAttribute)
  : VertexAttributeAccessor :=
  {| vData := r; attribute := attr;
     vertexSize := getVertexSize (getVertexDescription vd);
     dataPtr := data vd + getOffset attr |}.

Definition demo_positions : PositionAttributeAccessor :=
  {| position_base := accessor_of 1 demo_mesh demo_position |}.
Definition demo_texcoords : TexCoordAttributeAccessor :=
  {| texcoord_base := accessor_of 1 demo_mesh demo_texcoord |}.
Definition demo_colors : VertexAttributeAccessor :=
  accessor_of 1 demo_mesh demo_color.
Definition empty_positions : PositionAttributeAccessor :=
  {| position_base := accessor_of 2 empty_mesh demo_position |}.

(** The world after the second mesh has grown to ten vertices. *)
Definition grown_world : world :=
  World (<[2 := demo_mesh]> (objects demo_world)) (memory demo_world).

(** The world after the mesh has been reallocated elsewhere with another
    layout: 16-byte vertices at another address. *)
Definition moved_mesh : MeshVertexData :=
  {| getVertexDescription := {| getAttributes := [demo_position]; getVertexSize := 16 |};
     getVertexCount := 10; data := 8192 |}.

Definition moved_world : world :=
  World (<[1 := moved_mesh]> ∅) (zeroed 8192 160).

Definition one : float := Float x00 x00 x80 x3f.
Definition two : float := Float x00 x00 x00 x40.
Definition three : float := Float x00 x00 x40 x40.


(** ** Constructors of the concrete classes

    Both hand the buffer and the attribute to the base constructor and add
    nothing of their own. *)

Definition new_PositionAttributeAccessor (_vData : N) (_attribute : VertexAttribute)
  : M PositionAttributeAccessor :=
  base ← new_VertexAttributeAccessor _vData _attribute;
  mret {| position_base := base |}.

Definition new_TexCoordAttributeAccessor (_vData : N) (_attribute : VertexAttribute)
  : M TexCoordAttributeAccessor :=
  base ← new_VertexAttributeAccessor _vData _attribute;
  mret {| texcoord_base := base |}.

(** ** Vectors in memory *)

Definition decode_position (m : gmap N byte) (a : N) : option Vec3 :=
  x ← read_float m a;
  y ← read_float m (a + 4);
  z ← read_float m (a + 8);
  Some (mkVec3 x y z).

Definition decode_coordinate (m : gmap N byte) (a : N) : option Vec2 :=
  x ← read_float m a;
  y ← read_float m (a + 4);
  Some (mkVec2 x y).

Definition write_position (a : N) (p : Vec3) (m : gmap N byte) : gmap N byte :=
  write_float (a + 8) (vec3_z p)
    (write_float (a + 4) (vec3_y p) (write_float a (vec3_x p) m)).

Definition write_coordinate (a : N) (p : Vec2) (m : gmap N byte) : gmap N byte :=
  write_float (a + 4) (vec2_y p) (write_float a (vec2_x p) m).

(** The bytes a buffer owns: [getVertexCount] records of [getVertexSize]
    bytes from [data] on. *)
Definition storage_size (vd : MeshVertexData) : N :=
  getVertexCount vd * getVertexSize (getVertexDescription vd).

Definition storage_allocated (w : world) (vd : MeshVertexData) : Prop :=
  allocated (memory w) (data vd) (storage_size vd).

#[global] Instance storage_allocated_dec w vd : Decision (storage_allocated w vd).
Proof. unfold storage_allocated. apply _. Defined.

(** A computation that throws nothing. *)
Definition never_throws {A} (m : M A) : Prop :=
  ∀ w e, out (m w) ≠ Throw e.



(** * Proofs *)

(** ** Running a computation *)

Lemma result_eta {A} (r : result A) : Result (out r) (final r) (log r) = r.
Proof. by destruct r. Qed.

Lemma bind_Ok {A B} (m : M A) (f : A → M B) w a w' l :
  m w = Result (Ok a) w' l →
  (m ≫= f) w = Result (out (f a w')) (final (f a w')) (l ++ log (f a w')).
Proof. intros H. unfold mbind, M_bind. by rewrite H. Qed.

Lemma bind_silent {A B} (m : M A) (f : A → M B) w a :
  m w = Result (Ok a) w [] → (m ≫= f) w = f a w.
Proof. intros H. rewrite (bind_Ok _ _ _ _ _ _ H). apply result_eta. Qed.

Lemma bind_Throw {A B} (m : M A) (f : A → M B) w e w' l :
  m w = Result (Throw e) w' l → (m ≫= f) w = Result (Throw e) w' l.
Proof. intros H. unfold mbind, M_bind. by rewrite H. Qed.

Lemma bind_Undefined {A B} (m : M A) (f : A → M B) w w' l :
  m w = Result Undefined w' l → (m ≫= f) w = Result Undefined w' l.
Proof. intros H. unfold mbind, M_bind. by rewrite H. Qed.

Lemma set_memory_id w : set_memory w (memory w) = w.
Proof. by destruct w. Qed.

(** ** The range check *)

Section Range.
Context (this : VertexAttributeAccessor) (w : world).

Lemma deref_dangling {B} (f : MeshVertexData → M B) :
  objects w !! vData this = None →
  (deref (vData this) ≫= f) w = Result Undefined w [].
Proof. intros H. apply bind_Undefined. unfold deref. by rewrite H. Qed.

Lemma assertRange_dangling index :
  objects w !! vData this = None →
  assertRange this index w = Result Undefined w [].
Proof. apply deref_dangling. Qed.

Context (vd : MeshVertexData) (Hlive : objects w !! vData this = Some vd).

Lemma deref_live : deref (vData this) w = Result (Ok vd) w [].
Proof using Hlive. unfold deref. by rewrite Hlive. Qed.

Lemma checkRange_live index :
  checkRange this index w = Result (Ok (index <? getVertexCount vd)) w [].
Proof using Hlive. unfold checkRange. by rewrite (bind_silent _ _ _ _ deref_live). Qed.

Lemma assertRange_inside index :
  index < getVertexCount vd → assertRange this index w = Result (Ok tt) w [].
Proof using Hlive.
  intros Hlt. unfold assertRange. rewrite (bind_silent _ _ _ _ deref_live).
  by destruct (N.leb_spec (getVertexCount vd) index); [lia|].
Qed.

Lemma assertRange_outside index :
  getVertexCount vd ≤ index →
  assertRange this index w = Result (Throw (RangeError index (getVertexCount vd))) w [].
Proof using Hlive.
  intros Hge. unfold assertRange. rewrite (bind_silent _ _ _ _ deref_live).
  destruct (N.leb_spec (getVertexCount vd) index); [|lia].
  unfold throwRangeError. by rewrite (bind_silent _ _ _ _ deref_live).
Qed.

(** A checked operation runs its body when the index is a vertex ... *)
Lemma checked_inside {B} (body : M B) index :
  index < getVertexCount vd → (assertRange this index;; body) w = body w.
Proof using Hlive.
  intros. by apply (bind_silent _ (λ _, body) w tt), assertRange_inside.
Qed.

(** ... and throws before running it otherwise. *)
Lemma checked_outside {B} (body : M B) index :
  getVertexCount vd ≤ index →
  (assertRange this index;; body) w
  = Result (Throw (RangeError index (getVertexCount vd))) w [].
Proof using Hlive.
  intros. by apply (bind_Throw _ (λ _, body)), assertRange_outside.
Qed.

End Range.

(** Without a vertex at [index], a checked operation touches nothing. *)
Lemma checked_stops {B} this (body : M B) index w :
  ¬ in_range w this index →
  final ((assertRange this index;; body) w) = w
  ∧ log ((assertRange this index;; body) w) = [].
Proof.
  intros Hout. destruct (objects w !! vData this) as [vd|] eqn:Hlive.
  - rewrite (checked_outside this w vd Hlive); [done|].
    apply N.le_ngt. intros Hlt. apply Hout. by exists vd.
  - by rewrite (bind_Undefined _ (λ _, body) w w []
                 (assertRange_dangling this w index Hlive)).
Qed.

(** ** Floats in memory *)

Lemma float_index_0 v : float_index v 0 = v.
Proof. unfold float_index, sizeof_float. lia. Qed.

Lemma float_index_1 v : float_index v 1 = v + 4.
Proof. unfold float_index, sizeof_float. lia. Qed.

Lemma float_index_2 v : float_index v 2 = v + 8.
Proof. unfold float_index, sizeof_float. lia. Qed.

Lemma allocated_lookup (m : gmap N byte) a n k :
  allocated m a n → k < n → is_Some (m !! (a + k)).
Proof.
  unfold allocated, byte_range. rewrite Forall_fmap, Forall_seq.
  intros H Hk. specialize (H (N.to_nat k)). simpl in H.
  rewrite N2Nat.id in H. apply H. lia.
Qed.

Lemma allocated_intro (m : gmap N byte) a n :
  (∀ k, k < n → is_Some (m !! (a + k))) → allocated m a n.
Proof.
  intros H. unfold allocated, byte_range. rewrite Forall_fmap, Forall_seq.
  intros j Hj. simpl. apply H. lia.
Qed.

Lemma allocated_insert (m : gmap N byte) a n x b :
  allocated m a n → allocated (<[x:=b]> m) a n.
Proof.
  unfold allocated. intros H. eapply Forall_impl; [exact H|].
  intros y Hy. simpl. rewrite lookup_insert. by case_decide.
Qed.

Lemma is_Some_insert (m : gmap N byte) x b a :
  is_Some (m !! a) → is_Some (<[x:=b]> m !! a).
Proof. intros H. rewrite lookup_insert. by case_decide. Qed.

Lemma load_byte_Some w a b :
  memory w !! a = Some b → load_byte a w = Result (Ok b) w [Load a].
Proof. intros H. unfold load_byte. by rewrite H. Qed.

Lemma store_byte_Some w a b :
  is_Some (memory w !! a) →
  store_byte a b w = Result (Ok tt) (set_memory w (<[a:=b]> (memory w))) [Store a b].
Proof. intros [b' H]. unfold store_byte. by rewrite H. Qed.

Lemma load_float_Some w p f :
  read_float (memory w) p = Some f →
  load_float p w = Result (Ok f) w (float_loads p).
Proof.
  unfold read_float. intros H.
  destruct (memory w !! p) as [b0|] eqn:E0; [|done].
  destruct (memory w !! (p + 1)) as [b1|] eqn:E1; [|done].
  destruct (memory w !! (p + 2)) as [b2|] eqn:E2; [|done].
  destruct (memory w !! (p + 3)) as [b3|] eqn:E3; [|done].
  simpl in H. injection H as <-. unfold load_float.
  rewrite (bind_Ok _ _ _ _ _ _ (load_byte_Some w p b0 E0)).
  rewrite (bind_Ok _ _ _ _ _ _ (load_byte_Some w _ b1 E1)).
  rewrite (bind_Ok _ _ _ _ _ _ (load_byte_Some w _ b2 E2)).
  rewrite (bind_Ok _ _ _ _ _ _ (load_byte_Some w _ b3 E3)).
  reflexivity.
Qed.

Lemma store_float_allocated w p f :
  allocated (memory w) p 4 →
  store_float p f w
  = Result (Ok tt) (set_memory w (write_float p f (memory w))) (float_stores p f).
Proof.
  intros Ha.
  pose proof (allocated_lookup _ _ _ 0 Ha ltac:(lia)) as H0.
  pose proof (allocated_lookup _ _ _ 1 Ha ltac:(lia)) as H1.
  pose proof (allocated_lookup _ _ _ 2 Ha ltac:(lia)) as H2.
  pose proof (allocated_lookup _ _ _ 3 Ha ltac:(lia)) as H3.
  rewrite N.add_0_r in H0. unfold store_float.
  erewrite bind_Ok by (by apply store_byte_Some).
  erewrite bind_Ok by (apply store_byte_Some; simpl; by apply is_Some_insert).
  erewrite bind_Ok by (apply store_byte_Some; simpl; by do 2 apply is_Some_insert).
  rewrite store_byte_Some by (simpl; by do 3 apply is_Some_insert).
  reflexivity.
Qed.

Lemma write_float_lookup_ne (m : gmap N byte) p f a :
  ¬ within p 4 a → write_float p f m !! a = m !! a.
Proof.
  unfold within, write_float. intros H.
  rewrite !lookup_insert_ne by lia. done.
Qed.

Lemma read_write_float_eq (m : gmap N byte) p f :
  read_float (write_float p f m) p = Some f.
Proof.
  unfold read_float, write_float.
  rewrite (lookup_insert_ne _ (p + 3) p), (lookup_insert_ne _ (p + 2) p),
    (lookup_insert_ne _ (p + 1) p), lookup_insert_eq by lia.
  rewrite (lookup_insert_ne _ (p + 3) (p + 1)), (lookup_insert_ne _ (p + 2) (p + 1)),
    lookup_insert_eq by lia.
  rewrite (lookup_insert_ne _ (p + 3) (p + 2)), lookup_insert_eq by lia.
  rewrite lookup_insert_eq. by destruct f.
Qed.

Lemma read_write_float_ne (m : gmap N byte) p q f :
  p + 4 ≤ q ∨ q + 4 ≤ p → read_float (write_float p f m) q = read_float m q.
Proof.
  intros H. unfold read_float.
  rewrite !write_float_lookup_ne by (unfold within; lia). done.
Qed.

Lemma write_float_allocated (m : gmap N byte) p f a n :
  allocated m a n → allocated (write_float p f m) a n.
Proof. intros H. unfold write_float. by do 4 apply allocated_insert. Qed.

Lemma allocated_narrow (m : gmap N byte) a n b k :
  allocated m a n → a ≤ b → b + k ≤ a + n → allocated m b k.
Proof.
  intros H Hab Hk. apply allocated_intro. intros j Hj.
  replace (b + j) with (a + (b - a + j)) by lia.
  apply (allocated_lookup _ _ n); [done|lia].
Qed.

(** ** Footprints *)

Section Footprint.
Context {A B : Type} (P : N → Prop).

Lemma confined_ret (a : A) : confined P (mret a).
Proof. intros w. by repeat split. Qed.

Lemma confined_throw e : confined P (throw (A:=A) e).
Proof. intros w. by repeat split. Qed.

Lemma confined_bind (m : M A) (f : A → M B) :
  confined P m → (∀ a, confined P (f a)) → confined P (m ≫= f).
Proof.
  intros Hm Hf w. destruct (Hm w) as (Ho & Hmem & Hlog).
  unfold mbind, M_bind. destruct (out (m w)) as [a| |]; simpl; [|done..].
  destruct (Hf a (final (m w))) as (Ho' & Hmem' & Hlog'). repeat split.
  - congruence.
  - intros x Hx. by rewrite Hmem', Hmem.
  - by apply Forall_app.
Qed.

Lemma confined_ret_bind (a : A) (f : A → M B) :
  confined P (f a) → confined P (mret a ≫= f).
Proof. intros H w. by rewrite (bind_silent (mret a) f w a). Qed.

Lemma confined_weaken (Q : N → Prop) (m : M A) :
  (∀ x, P x → Q x) → confined P m → confined Q m.
Proof.
  intros HPQ Hm w. destruct (Hm w) as (Ho & Hmem & Hlog). repeat split.
  - done.
  - intros x Hx. apply Hmem. naive_solver.
  - eapply Forall_impl; [exact Hlog|]. naive_solver.
Qed.

Lemma read_only_ret (a : A) : read_only (mret a).
Proof. intros w. by split. Qed.

Lemma read_only_throw e : read_only (throw (A:=A) e).
Proof. intros w. by split. Qed.

Lemma read_only_bind (m : M A) (f : A → M B) :
  read_only m → (∀ a, read_only (f a)) → read_only (m ≫= f).
Proof.
  intros Hm Hf w. destruct (Hm w) as (Hw & Hlog).
  unfold mbind, M_bind. destruct (out (m w)) as [a| |]; simpl; [|done..].
  destruct (Hf a (final (m w))) as (Hw' & Hlog'). split.
  - congruence.
  - by apply Forall_app.
Qed.

End Footprint.

Lemma confined_deref P r : confined P (deref r).
Proof. intros w. unfold deref. by destruct (objects w !! r); repeat split. Qed.

Lemma read_only_deref r : read_only (deref r).
Proof. intros w. unfold deref. by destruct (objects w !! r); split. Qed.

Lemma confined_load_byte (P : N → Prop) a : P a → confined P (load_byte a).
Proof.
  intros Ha w. unfold load_byte.
  destruct (memory w !! a); repeat split; simpl; auto.
Qed.

Lemma read_only_load_byte a : read_only (load_byte a).
Proof.
  intros w. unfold load_byte. destruct (memory w !! a); split; simpl; auto.
Qed.

Lemma confined_store_byte (P : N → Prop) a b : P a → confined P (store_byte a b).
Proof.
  intros Ha w. unfold store_byte.
  destruct (memory w !! a); repeat split; simpl; auto.
  intros x Hx. apply lookup_insert_ne. congruence.
Qed.

Lemma confined_load_float p : confined (within p 4) (load_float p).
Proof.
  unfold load_float.
  repeat (apply confined_bind; [apply confined_load_byte; unfold within; lia|intros ?]).
  apply confined_ret.
Qed.

Lemma read_only_load_float p : read_only (load_float p).
Proof.
  unfold load_float.
  repeat (apply read_only_bind; [apply read_only_load_byte|intros ?]).
  apply read_only_ret.
Qed.

Lemma confined_store_float p f : confined (within p 4) (store_float p f).
Proof.
  unfold store_float.
  repeat (apply confined_bind; [apply confined_store_byte; unfold within; lia|intros ?]).
  apply confined_store_byte. unfold within. lia.
Qed.

Lemma confined_assertRange P this index : confined P (assertRange this index).
Proof.
  unfold assertRange. apply confined_bind; [apply confined_deref|]. intros vd.
  destruct (getVertexCount vd <=? index); [|apply confined_ret].
  unfold throwRangeError. apply confined_bind; [apply confined_deref|].
  intros vd'. apply confined_throw.
Qed.

Lemma read_only_assertRange this index : read_only (assertRange this index).
Proof.
  unfold assertRange. apply read_only_bind; [apply read_only_deref|]. intros vd.
  destruct (getVertexCount vd <=? index); [|apply read_only_ret].
  unfold throwRangeError. apply read_only_bind; [apply read_only_deref|].
  intros vd'. apply read_only_throw.
Qed.

Lemma read_only_checkRange this index : read_only (checkRange this index).
Proof.
  unfold checkRange. apply read_only_bind; [apply read_only_deref|].
  intros vd. apply read_only_ret.
Qed.

(** A float of an attribute lies inside the attribute. *)
Lemma within_float v k n x :
  k * 4 + 4 ≤ n → within (float_index v k) 4 x → within v n x.
Proof. unfold within, float_index, sizeof_float. lia. Qed.

Ltac confined_float k :=
  eapply confined_weaken;
  [intros ?; apply (within_float _ k); lia
  |first [apply confined_load_float|apply confined_store_float]].

Lemma confined_getPosition (this : PositionAttributeAccessor) index :
  confined (within (attribute_address this index) 12) (getPosition this index).
Proof.
  unfold getPosition. apply confined_bind; [apply confined_assertRange|intros _].
  apply confined_ret_bind. fold (attribute_address this index).
  apply confined_bind; [confined_float 0|intros x].
  apply confined_bind; [confined_float 1|intros y].
  apply confined_bind; [confined_float 2|intros z].
  apply confined_ret.
Qed.

Lemma confined_setPosition (this : PositionAttributeAccessor) index p :
  confined (within (attribute_address this index) 12) (setPosition this index p).
Proof.
  unfold setPosition. apply confined_bind; [apply confined_assertRange|intros _].
  apply confined_ret_bind. fold (attribute_address this index).
  apply confined_bind; [confined_float 0|intros _].
  apply confined_bind; [confined_float 1|intros _].
  confined_float 2.
Qed.

Lemma confined_getCoordinate (this : TexCoordAttributeAccessor) index :
  confined (within (attribute_address this index) 8) (getCoordinate this index).
Proof.
  unfold getCoordinate. apply confined_bind; [apply confined_assertRange|intros _].
  apply confined_ret_bind. fold (attribute_address this index).
  apply confined_bind; [confined_float 0|intros x].
  apply confined_bind; [confined_float 1|intros y].
  apply confined_ret.
Qed.

Lemma confined_setCoordinate (this : TexCoordAttributeAccessor) index p :
  confined (within (attribute_address this index) 8) (setCoordinate this index p).
Proof.
  unfold setCoordinate. apply confined_bind; [apply confined_assertRange|intros _].
  apply confined_ret_bind. fold (attribute_address this index).
  apply confined_bind; [confined_float 0|intros _].
  confined_float 1.
Qed.

Lemma read_only_getPosition (this : PositionAttributeAccessor) index :
  read_only (getPosition this index).
Proof.
  unfold getPosition. apply read_only_bind; [apply read_only_assertRange|intros _].
  apply read_only_bind; [apply read_only_ret|intros v].
  repeat (apply read_only_bind; [apply read_only_load_float|intros ?]).
  apply read_only_ret.
Qed.

Lemma read_only_getCoordinate (this : TexCoordAttributeAccessor) index :
  read_only (getCoordinate this index).
Proof.
  unfold getCoordinate. apply read_only_bind; [apply read_only_assertRange|intros _].
  apply read_only_bind; [apply read_only_ret|intros v].
  repeat (apply read_only_bind; [apply read_only_load_float|intros ?]).
  apply read_only_ret.
Qed.

(** Whatever a checked operation touches, it touches for a vertex. *)
Lemma checked_touches {B} this (body : M B) index w a :
  a ∈ touched ((assertRange this index;; body) w) → in_range w this index.
Proof.
  intros Ha. destruct (decide (in_range w this index)) as [|Hout]; [done|].
  destruct (checked_stops this body index w Hout) as [_ Hlog].
  unfold touched in Ha. rewrite Hlog in Ha. by apply elem_of_nil in Ha.
Qed.

Lemma confined_touched {B} (P : N → Prop) (m : M B) w a :
  confined P m → a ∈ touched (m w) → P a.
Proof.
  intros Hm Ha. destruct (Hm w) as (_ & _ & Hlog).
  unfold touched in Ha. apply list_elem_of_fmap in Ha as (e & -> & He).
  rewrite Forall_forall in Hlog. by apply Hlog.
Qed.

(** ** What the accessors compute for a vertex *)

Section Vertex.
Context (w : world) (vd : MeshVertexData) (index : N).

Lemma getPosition_reads (this : PositionAttributeAccessor) x y z :
  objects w !! vData this = Some vd →
  index < getVertexCount vd →
  read_float (memory w) (attribute_address this index) = Some x →
  read_float (memory w) (attribute_address this index + 4) = Some y →
  read_float (memory w) (attribute_address this index + 8) = Some z →
  getPosition this index w
  = Result (Ok (mkVec3 x y z)) w
      (float_loads (attribute_address this index)
       ++ float_loads (attribute_address this index + 4)
       ++ float_loads (attribute_address this index + 8)).
Proof.
  intros Hlive Hlt Hx Hy Hz. unfold getPosition.
  rewrite (checked_inside this w vd Hlive) by done. unfold _ptr.
  rewrite (bind_silent (mret _) _ w _ eq_refl).
  fold (attribute_address this index).
  rewrite float_index_0, float_index_1, float_index_2.
  erewrite bind_Ok by (apply load_float_Some; eassumption).
  erewrite bind_Ok by (apply load_float_Some; eassumption).
  erewrite bind_Ok by (apply load_float_Some; eassumption).
  reflexivity.
Qed.

Lemma setPosition_writes (this : PositionAttributeAccessor) p :
  objects w !! vData this = Some vd →
  index < getVertexCount vd →
  allocated (memory w) (attribute_address this index) 12 →
  setPosition this index p w
  = Result (Ok tt)
      (set_memory w
         (write_float (attribute_address this index + 8) (vec3_z p)
            (write_float (attribute_address this index + 4) (vec3_y p)
               (write_float (attribute_address this index) (vec3_x p) (memory w)))))
      (float_stores (attribute_address this index) (vec3_x p)
       ++ float_stores (attribute_address this index + 4) (vec3_y p)
       ++ float_stores (attribute_address this index + 8) (vec3_z p)).
Proof.
  intros Hlive Hlt Ha. unfold setPosition.
  rewrite (checked_inside this w vd Hlive) by done. unfold _ptr.
  rewrite (bind_silent (mret _) _ w _ eq_refl).
  fold (attribute_address this index).
  rewrite float_index_0, float_index_1, float_index_2.
  erewrite bind_Ok
    by (apply store_float_allocated; eapply allocated_narrow; [exact Ha|lia..]).
  erewrite bind_Ok
    by (apply store_float_allocated; simpl; apply write_float_allocated;
        eapply allocated_narrow; [exact Ha|lia..]).
  rewrite store_float_allocated
    by (simpl; do 2 apply write_float_allocated;
        eapply allocated_narrow; [exact Ha|lia..]).
  reflexivity.
Qed.

Lemma getCoordinate_reads (this : TexCoordAttributeAccessor) x y :
  objects w !! vData this = Some vd →
  index < getVertexCount vd →
  read_float (memory w) (attribute_address this index) = Some x →
  read_float (memory w) (attribute_address this index + 4) = Some y →
  getCoordinate this index w
  = Result (Ok (mkVec2 x y)) w
      (float_loads (attribute_address this index)
       ++ float_loads (attribute_address this index + 4)).
Proof.
  intros Hlive Hlt Hx Hy. unfold getCoordinate.
  rewrite (checked_inside this w vd Hlive) by done. unfold _ptr.
  rewrite (bind_silent (mret _) _ w _ eq_refl).
  fold (attribute_address this index).
  rewrite float_index_0, float_index_1.
  erewrite bind_Ok by (apply load_float_Some; eassumption).
  erewrite bind_Ok by (apply load_float_Some; eassumption).
  reflexivity.
Qed.

Lemma setCoordinate_writes (this : TexCoordAttributeAccessor) p :
  objects w !! vData this = Some vd →
  index < getVertexCount vd →
  allocated (memory w) (attribute_address this index) 8 →
  setCoordinate this index p w
  = Result (Ok tt)
      (set_memory w
         (write_float (attribute_address this index + 4) (vec2_y p)
            (write_float (attribute_address this index) (vec2_x p) (memory w))))
      (float_stores (attribute_address this index) (vec2_x p)
       ++ float_stores (attribute_address this index + 4) (vec2_y p)).
Proof.
  intros Hlive Hlt Ha. unfold setCoordinate.
  rewrite (checked_inside this w vd Hlive) by done. unfold _ptr.
  rewrite (bind_silent (mret _) _ w _ eq_refl).
  fold (attribute_address this index).
  rewrite float_index_0, float_index_1.
  erewrite bind_Ok
    by (apply store_float_allocated; eapply allocated_narrow; [exact Ha|lia..]).
  rewrite store_float_allocated
    by (simpl; apply write_float_allocated;
        eapply allocated_narrow; [exact Ha|lia..]).
  reflexivity.
Qed.

End Vertex.

(** ** Accessors over an unaltered buffer *)

Section Views.
Context (w : world) (this : VertexAttributeAccessor) (vd : MeshVertexData) (n : N).
Context (Hviews : views w this vd n).

Lemma size_t_mul_small a b : a * b < 2 ^ SIZE_WIDTH → size_t_mul a b = a * b.
Proof. intros H. unfold size_t_mul. by apply N.mod_small. Qed.

Lemma views_no_wrap index :
  index < getVertexCount vd →
  size_t_mul index (vertexSize this) = index * vertexSize this.
Proof using Hviews.
  intros Hlt. apply size_t_mul_small.
  pose proof (views_size _ _ _ _ Hviews). nia.
Qed.

Lemma views_address index :
  index < getVertexCount vd →
  attribute_address this index
  = data vd + index * getVertexSize (getVertexDescription vd)
    + getOffset (attribute this).
Proof using Hviews.
  intros Hlt. unfold attribute_address. rewrite views_no_wrap by done.
  rewrite (views_base _ _ _ _ Hviews), (views_stride _ _ _ _ Hviews). lia.
Qed.

Lemma views_allocated index :
  allocated (memory w) (data vd)
    (getVertexCount vd * getVertexSize (getVertexDescription vd)) →
  index < getVertexCount vd →
  allocated (memory w) (attribute_address this index) n.
Proof using Hviews.
  intros Hmem Hlt. rewrite views_address by done.
  pose proof (views_fits _ _ _ _ Hviews) as Hfits.
  rewrite (views_stride _ _ _ _ Hviews) in Hfits.
  eapply allocated_narrow; [exact Hmem|lia|nia].
Qed.

End Views.

(** The constructor builds a view of the buffer it is given. *)
Lemma new_VertexAttributeAccessor_views w r vd attr n :
  objects w !! r = Some vd →
  getOffset attr + n ≤ getVertexSize (getVertexDescription vd) →
  getVertexCount vd * getVertexSize (getVertexDescription vd) < 2 ^ SIZE_WIDTH →
  new_VertexAttributeAccessor r attr w = Result (Ok (accessor_of r vd attr)) w []
  ∧ views w (accessor_of r vd attr) vd n.
Proof.
  intros Hlive Hfits Hsize. split; [|by split].
  unfold new_VertexAttributeAccessor, deref, mbind, M_bind. by rewrite Hlive.
Qed.

(** * The claims *)

(** C1. For an index at or beyond the buffer's current vertex count,
    [getPosition] and [setPosition] throw a RangeError carrying the index and
    the count, leave the world exactly as it was and log no load and no
    store.  (In a buffer without vertices this covers index 0.) *)
Theorem position_out_of_range (this : PositionAttributeAccessor) w vd index p :
  objects w !! vData this = Some vd →
  getVertexCount vd ≤ index →
  getPosition this index w
  = Result (Throw (RangeError index (getVertexCount vd))) w []
  ∧ setPosition this index p w
    = Result (Throw (RangeError index (getVertexCount vd))) w [].
Proof.
  intros Hlive Hge. split.
  - unfold getPosition. by apply checked_outside.
  - unfold setPosition. by apply checked_outside.
Qed.

Lemma position_out_of_range_empty_buffer :
  getPosition empty_positions 0 demo_world
  = Result (Throw (RangeError 0 0)) demo_world []
  ∧ setPosition empty_positions 0 (mkVec3 one two three) demo_world
    = Result (Throw (RangeError 0 0)) demo_world [].
Proof.
  apply (position_out_of_range empty_positions demo_world empty_mesh 0).
  - reflexivity.
  - simpl. lia.
Defined.

(** C2. Writing a position at a valid index and reading it back through the
    same accessor returns the vector written, byte for byte. *)
Theorem setPosition_getPosition (this : PositionAttributeAccessor) w vd index p :
  objects w !! vData this = Some vd →
  index < getVertexCount vd →
  allocated (memory w) (attribute_address this index) 12 →
  out ((setPosition this index p;; getPosition this index) w) = Ok p.
Proof.
  intros Hlive Hlt Ha.
  rewrite (bind_Ok _ _ _ _ _ _ (setPosition_writes w vd index this p Hlive Hlt Ha)).
  destruct p as [x y z]. simpl.
  erewrite (getPosition_reads _ vd index this x y z); [done..| | |]; simpl.
  - rewrite !read_write_float_ne by lia. apply read_write_float_eq.
  - rewrite read_write_float_ne by lia. apply read_write_float_eq.
  - apply read_write_float_eq.
Qed.

Lemma setPosition_getPosition_vertex_3 :
  out ((setPosition demo_positions 3 (mkVec3 one two three);;
        getPosition demo_positions 3) demo_world)
  = Ok (mkVec3 one two three).
Proof.
  apply (setPosition_getPosition demo_positions demo_world demo_mesh 3).
  - reflexivity.
  - reflexivity.
  - compute_done.
Defined.

(** C3. [checkRange] answers, without touching anything, whether the index is
    below the vertex count the buffer has in the world of the call, whatever
    the count was when the accessor was built; [assertRange] returns when
    [checkRange] says true and throws the RangeError when it says false. *)
Theorem checkRange_assertRange (this : VertexAttributeAccessor) w vd index :
  objects w !! vData this = Some vd →
  (∃ b, checkRange this index w = Result (Ok b) w [])
  ∧ (out (checkRange this index w) = Ok true ↔ index < getVertexCount vd)
  ∧ (out (checkRange this index w) = Ok true
     ↔ assertRange this index w = Result (Ok tt) w [])
  ∧ (out (checkRange this index w) = Ok false
     ↔ assertRange this index w
       = Result (Throw (RangeError index (getVertexCount vd))) w []).
Proof.
  intros Hlive. rewrite (checkRange_live this w vd Hlive). simpl.
  destruct (N.ltb_spec index (getVertexCount vd)) as [Hlt|Hge].
  - rewrite (assertRange_inside this w vd Hlive) by done.
    repeat split; eauto; done.
  - rewrite (assertRange_outside this w vd Hlive) by done.
    repeat split; eauto; try done. lia.
Qed.

Lemma checkRange_observes_growth :
  (out (checkRange empty_positions 0 demo_world) = Ok true ↔ 0 < 0)
  ∧ (out (checkRange empty_positions 0 grown_world) = Ok true ↔ 0 < 10).
Proof.
  split.
  - apply (checkRange_assertRange empty_positions demo_world empty_mesh 0).
    reflexivity.
  - apply (checkRange_assertRange empty_positions grown_world demo_mesh 0).
    reflexivity.
Defined.

(** C4. [_ptr] performs no check: for every index, in range or not, whether
    or not the buffer is still there, it returns the address it computes and
    touches nothing, and that address is dataPtr + index * vertexSize as long
    as the product fits a [size_t].  The four public get/set operations check
    before they touch memory: each address they load from or store to lies in
    the attribute of a vertex the buffer has at the time of the call. *)
Theorem accessors_touch_vertices_only :
  (∀ (this : VertexAttributeAccessor) index w,
     _ptr this index w = Result (Ok (attribute_address this index)) w [])
  ∧ (∀ (this : VertexAttributeAccessor) index,
       index * vertexSize this < 2 ^ SIZE_WIDTH →
       attribute_address this index = dataPtr this + index * vertexSize this)
  ∧ (∀ (this : PositionAttributeAccessor) index w a,
       a ∈ touched (getPosition this index w) →
       in_range w this index ∧ within (attribute_address this index) 12 a)
  ∧ (∀ (this : PositionAttributeAccessor) index p w a,
       a ∈ touched (setPosition this index p w) →
       in_range w this index ∧ within (attribute_address this index) 12 a)
  ∧ (∀ (this : TexCoordAttributeAccessor) index w a,
       a ∈ touched (getCoordinate this index w) →
       in_range w this index ∧ within (attribute_address this index) 8 a)
  ∧ (∀ (this : TexCoordAttributeAccessor) index p w a,
       a ∈ touched (setCoordinate this index p w) →
       in_range w this index ∧ within (attribute_address this index) 8 a).
Proof.
  split; [done|]. split.
  { intros this index H. unfold attribute_address. by rewrite size_t_mul_small. }
  split; [|split; [|split]]; intros; (split; [by eapply checked_touches|]).
  - by eapply confined_touched; [apply confined_getPosition|].
  - by eapply confined_touched; [apply confined_setPosition|].
  - by eapply confined_touched; [apply confined_getCoordinate|].
  - by eapply confined_touched; [apply confined_setCoordinate|].
Qed.

Lemma accessors_touch_vertices_only_vertex_3 :
  attribute_address demo_positions 3 = 4096 + 3 * 32
  ∧ in_range demo_world demo_positions 3
  ∧ within (attribute_address demo_positions 3) 12 4203.
Proof.
  destruct accessors_touch_vertices_only as (_ & Hptr & _ & Hset & _).
  split.
  - apply (Hptr demo_positions 3). compute_done.
  - apply (Hset demo_positions 3 (mkVec3 one two three) demo_world 4203).
    compute_done.
Defined.

(** C5. A factory asked for a name the layout of the buffer does not have
    throws InvalidAttribute, for every list of encodings its family knows,
    without building an accessor or touching anything; a name the layout has
    but whose encoding no strategy matches throws UnsupportedEncoding, a
    different failure. *)
Theorem create_missing_attribute (w : world) (r : N) (vd : MeshVertexData)
    (name : string) :
  objects w !! r = Some vd →
  lookup_attribute name (getVertexDescription vd) = None →
  (∀ known, create known r name w
            = Result (Throw (InvalidArgument (InvalidAttribute name))) w [])
  ∧ PositionAttributeAccessor_create r name w
    = Result (Throw (InvalidArgument (InvalidAttribute name))) w []
  ∧ TexCoordAttributeAccessor_create r name w
    = Result (Throw (InvalidArgument (InvalidAttribute name))) w []
  ∧ ColorAttributeAccessor_create r name w
    = Result (Throw (InvalidArgument (InvalidAttribute name))) w []
  ∧ (∀ known, NormalAttributeAccessor_create known r name w
              = Result (Throw (InvalidArgument (InvalidAttribute name))) w [])
  ∧ (∀ known name' attr,
       lookup_attribute name' (getVertexDescription vd) = Some attr →
       list_find (matches attr) known = None →
       create known r name' w
       = Result (Throw (InvalidArgument (UnsupportedEncoding name'))) w []
       ∧ InvalidAttribute name ≠ UnsupportedEncoding name').
Proof.
  intros Hlive Habsent.
  assert (∀ known, create known r name w
            = Result (Throw (InvalidArgument (InvalidAttribute name))) w [])
    as Hcreate.
  { intros known. unfold create, deref, mbind, M_bind.
    by rewrite Hlive; simpl; rewrite Habsent. }
  split; [done|]. split; [|split; [|split; [|split]]].
  - unfold PositionAttributeAccessor_create. by apply bind_Throw.
  - unfold TexCoordAttributeAccessor_create. by apply bind_Throw.
  - apply Hcreate.
  - intros known. apply Hcreate.
  - intros known name' attr Hfound Hnone. split; [|done].
    unfold create, deref, mbind, M_bind.
    by rewrite Hlive; simpl; rewrite Hfound, Hnone.
Qed.

Lemma create_missing_attribute_normal :
  (∀ known, create known 1 "sg_Normal" demo_world
            = Result (Throw (InvalidArgument (InvalidAttribute "sg_Normal")))
                demo_world [])
  ∧ PositionAttributeAccessor_create 1 "sg_Normal" demo_world
    = Result (Throw (InvalidArgument (InvalidAttribute "sg_Normal"))) demo_world []
  ∧ TexCoordAttributeAccessor_create 1 "sg_Normal" demo_world
    = Result (Throw (InvalidArgument (InvalidAttribute "sg_Normal"))) demo_world []
  ∧ ColorAttributeAccessor_create 1 "sg_Normal" demo_world
    = Result (Throw (InvalidArgument (InvalidAttribute "sg_Normal"))) demo_world []
  ∧ (∀ known, NormalAttributeAccessor_create known 1 "sg_Normal" demo_world
              = Result (Throw (InvalidArgument (InvalidAttribute "sg_Normal")))
                  demo_world [])
  ∧ (∀ known name' attr,
       lookup_attribute name' (getVertexDescription demo_mesh) = Some attr →
       list_find (matches attr) known = None →
       create known 1 name' demo_world
       = Result (Throw (InvalidArgument (UnsupportedEncoding name'))) demo_world []
       ∧ InvalidAttribute "sg_Normal" ≠ UnsupportedEncoding name').
Proof.
  apply (create_missing_attribute demo_world 1 demo_mesh "sg_Normal").
  - reflexivity.
  - reflexivity.
Defined.

(** C6. The texture-coordinate accessor is the position accessor with two
    floats.  Out of range, [getCoordinate] and [setCoordinate] throw the
    RangeError and touch nothing.  In range, [getCoordinate] returns (u, v),
    the float stored at the attribute's address and the float four bytes
    later, and changes nothing; [setCoordinate] stores the two floats of its
    argument at these two places and changes nothing else; and reading after
    writing returns the vector written. *)
Theorem texcoord_contract (this : TexCoordAttributeAccessor) w vd index :
  objects w !! vData this = Some vd →
  (getVertexCount vd ≤ index →
     getCoordinate this index w
     = Result (Throw (RangeError index (getVertexCount vd))) w []
     ∧ ∀ p, setCoordinate this index p w
            = Result (Throw (RangeError index (getVertexCount vd))) w [])
  ∧ (index < getVertexCount vd →
     (∀ u v,
        read_float (memory w) (attribute_address this index) = Some u →
        read_float (memory w) (attribute_address this index + 4) = Some v →
        out (getCoordinate this index w) = Ok (mkVec2 u v)
        ∧ final (getCoordinate this index w) = w)
     ∧ (∀ p,
          allocated (memory w) (attribute_address this index) 8 →
          out (setCoordinate this index p w) = Ok tt
          ∧ final (setCoordinate this index p w)
            = set_memory w
                (write_float (attribute_address this index + 4) (vec2_y p)
                   (write_float (attribute_address this index) (vec2_x p)
                      (memory w)))
          ∧ out ((setCoordinate this index p;; getCoordinate this index) w)
            = Ok p)).
Proof.
  intros Hlive. split.
  - intros Hge. split; [|intros p].
    + unfold getCoordinate. by apply checked_outside.
    + unfold setCoordinate. by apply checked_outside.
  - intros Hlt. split.
    + intros u v Hu Hv.
      by rewrite (getCoordinate_reads w vd index this u v Hlive Hlt Hu Hv).
    + intros p Ha.
      pose proof (setCoordinate_writes w vd index this p Hlive Hlt Ha) as Hset.
      rewrite (bind_Ok _ _ _ _ _ _ Hset), Hset.
      split; [done|]. split; [done|].
      destruct p as [x y]. simpl.
      erewrite (getCoordinate_reads _ vd index this x y); [done..| |]; simpl.
      * rewrite read_write_float_ne by lia. apply read_write_float_eq.
      * apply read_write_float_eq.
Qed.

Lemma texcoord_contract_vertex_3 :
  out ((setCoordinate demo_texcoords 3 (mkVec2 one two);;
        getCoordinate demo_texcoords 3) demo_world)
  = Ok (mkVec2 one two).
Proof.
  destruct (texcoord_contract demo_texcoords demo_world demo_mesh 3 eq_refl)
    as [_ Hin].
  destruct (Hin eq_refl) as [_ Hset].
  apply (Hset (mkVec2 one two)). compute_done.
Defined.

(** Two attributes that do not overlap inside the vertex record do not
    overlap in memory either, whichever two vertices are taken. *)
Lemma attributes_disjoint w vd (one other : VertexAttributeAccessor) n m i j x :
  views w one vd n → views w other vd m →
  getOffset (attribute one) + n ≤ getOffset (attribute other)
  ∨ getOffset (attribute other) + m ≤ getOffset (attribute one) →
  i < getVertexCount vd → j < getVertexCount vd →
  within (attribute_address one i) n x →
  ¬ within (attribute_address other j) m x.
Proof.
  intros Hone Hother Hoff Hi Hj.
  rewrite (views_address w one vd n Hone i Hi).
  rewrite (views_address w other vd m Hother j Hj).
  pose proof (views_fits _ _ _ _ Hone) as Hn.
  pose proof (views_fits _ _ _ _ Hother) as Hm.
  rewrite (views_stride _ _ _ _ Hone) in Hn.
  rewrite (views_stride _ _ _ _ Hother) in Hm.
  unfold within. set (S := getVertexSize (getVertexDescription vd)) in *.
  destruct (N.lt_trichotomy i j) as [Hlt|[->|Hgt]]; [|lia|].
  - assert (i * S + S ≤ j * S) by nia. lia.
  - assert (j * S + S ≤ i * S) by nia. lia.
Qed.

(** A checked write changes memory only inside its own attribute. *)
Lemma checked_write_frame {B} w vd (this other : VertexAttributeAccessor)
    (body : M B) n m index j k :
  confined (within (attribute_address this index) n) (assertRange this index;; body) →
  views w this vd n → views w other vd m →
  getOffset (attribute this) + n ≤ getOffset (attribute other)
  ∨ getOffset (attribute other) + m ≤ getOffset (attribute this) →
  j < getVertexCount vd → k < m →
  memory (final ((assertRange this index;; body) w)) !! (attribute_address other j + k)
  = memory w !! (attribute_address other j + k).
Proof.
  intros Hconf Hthis Hother Hoff Hj Hk.
  destruct (decide (in_range w this index)) as [(vd' & Hlive & Hlt)|Hout].
  - rewrite (views_live _ _ _ _ Hthis) in Hlive. injection Hlive as <-.
    destruct (Hconf w) as (_ & Hmem & _). apply Hmem. intros Hx.
    apply (attributes_disjoint w vd this other n m index j _
             Hthis Hother Hoff Hlt Hj Hx).
    unfold within. lia.
  - by destruct (checked_stops this body index w Hout) as [-> _].
Qed.

(** C7. For two accessors over the same unaltered buffer whose attributes do
    not overlap inside the vertex record, [setPosition] and [setCoordinate]
    through the one, at any index, leave every byte of the other attribute
    as it was, at the same vertex and at every other vertex. *)
Theorem writes_leave_other_attributes (w : world) (vd : MeshVertexData)
    (other : VertexAttributeAccessor) (m j k : N) :
  views w other vd m →
  j < getVertexCount vd →
  k < m →
  (∀ (this : PositionAttributeAccessor) index p,
     views w this vd 12 →
     getOffset (attribute this) + 12 ≤ getOffset (attribute other)
     ∨ getOffset (attribute other) + m ≤ getOffset (attribute this) →
     memory (final (setPosition this index p w)) !! (attribute_address other j + k)
     = memory w !! (attribute_address other j + k))
  ∧ (∀ (this : TexCoordAttributeAccessor) index p,
       views w this vd 8 →
       getOffset (attribute this) + 8 ≤ getOffset (attribute other)
       ∨ getOffset (attribute other) + m ≤ getOffset (attribute this) →
       memory (final (setCoordinate this index p w)) !! (attribute_address other j + k)
       = memory w !! (attribute_address other j + k)).
Proof.
  intros Hother Hj Hk. split; intros this index p Hthis Hoff.
  - eapply (checked_write_frame w vd this other); try done.
    apply confined_setPosition.
  - eapply (checked_write_frame w vd this other); try done.
    apply confined_setCoordinate.
Qed.

Lemma demo_views_position : views demo_world demo_positions demo_mesh 12.
Proof. split; compute_done. Defined.

Lemma demo_views_color : views demo_world demo_colors demo_mesh 4.
Proof. split; compute_done. Defined.

Lemma setPosition_leaves_color_of_vertex_3 :
  Forall (λ k,
    memory (final (setPosition demo_positions 3 (mkVec3 one two three) demo_world))
      !! (attribute_address demo_colors 3 + k)
    = memory demo_world !! (attribute_address demo_colors 3 + k))
    [0; 1; 2; 3].
Proof.
  assert (getOffset (attribute demo_positions) + 12 ≤ getOffset (attribute demo_colors)
          ∨ getOffset (attribute demo_colors) + 4 ≤ getOffset (attribute demo_positions))
    as Hoff by (left; compute_done).
  pose proof (λ k Hk,
    proj1 (writes_leave_other_attributes demo_world demo_mesh demo_colors 4 3 k
             demo_views_color eq_refl Hk)
      demo_positions 3 (mkVec3 one two three) demo_views_position Hoff) as Hkept.
  repeat apply Forall_cons_2; [..|apply Forall_nil_2].
  - apply (Hkept 0 eq_refl).
  - apply (Hkept 1 eq_refl).
  - apply (Hkept 2 eq_refl).
  - apply (Hkept 3 eq_refl).
Defined.

(** C9. What the constructor captured stays: in every later world, however
    the buffer or its layout has changed since, [getAttribute] returns the
    metadata the constructor was given, and [_ptr] computes the address from
    the base pointer (data pointer plus attribute offset) and the vertex size
    that the buffer had when the accessor was built. *)
Theorem accessor_state_is_fixed (r : N) (attr : VertexAttribute) (w0 : world)
    (this : VertexAttributeAccessor) :
  out (new_VertexAttributeAccessor r attr w0) = Ok this →
  ∃ vd0, objects w0 !! r = Some vd0
    ∧ ∀ w1,
        getAttribute this w1 = Result (Ok attr) w1 []
        ∧ ∀ index,
            index * getVertexSize (getVertexDescription vd0) < 2 ^ SIZE_WIDTH →
            _ptr this index w1
            = Result (Ok (data vd0 + getOffset attr
                          + index * getVertexSize (getVertexDescription vd0)))
                w1 [].
Proof.
  unfold new_VertexAttributeAccessor, deref, mbind, M_bind.
  destruct (objects w0 !! r) as [vd0|]; simpl; [|done].
  intros [= <-]. exists vd0. split; [done|]. intros w1. split; [done|].
  intros index Hfit. unfold _ptr. simpl. by rewrite size_t_mul_small.
Qed.

Lemma accessor_state_is_fixed_after_move :
  getAttribute demo_colors moved_world = Result (Ok demo_color) moved_world []
  ∧ _ptr demo_colors 3 moved_world = Result (Ok (4096 + 12 + 3 * 32)) moved_world [].
Proof.
  destruct (accessor_state_is_fixed 1 demo_color demo_world demo_colors eq_refl)
    as (vd0 & Hvd0 & Hfixed).
  vm_compute in Hvd0. injection Hvd0 as <-.
  destruct (Hfixed moved_world) as [Hattr Hptr].
  split; [exact Hattr|]. apply (Hptr 3). compute_done.
Defined.

(** C10. [getPosition], [getCoordinate], [checkRange] and [getAttribute]
    leave the world as it was and log loads only, so a second call with the
    same index right after the first gives the same result. *)
Theorem getters_are_pure_reads :
  (∀ (this : PositionAttributeAccessor) index,
     read_only (getPosition this index)
     ∧ ∀ w, getPosition this index (final (getPosition this index w))
            = getPosition this index w)
  ∧ (∀ (this : TexCoordAttributeAccessor) index,
       read_only (getCoordinate this index)
       ∧ ∀ w, getCoordinate this index (final (getCoordinate this index w))
              = getCoordinate this index w)
  ∧ (∀ (this : VertexAttributeAccessor) index,
       read_only (checkRange this index)
       ∧ ∀ w, checkRange this index (final (checkRange this index w))
              = checkRange this index w)
  ∧ (∀ (this : VertexAttributeAccessor),
       read_only (getAttribute this)
       ∧ ∀ w, getAttribute this (final (getAttribute this w))
              = getAttribute this w).
Proof.
  assert (∀ A (m : M A), read_only m → ∀ w, m (final (m w)) = m w) as Hagain.
  { intros A m Hm w. by destruct (Hm w) as [-> _]. }
  split; [|split; [|split]]; intros; (split; [|apply Hagain]).
  - apply read_only_getPosition.
  - apply read_only_getPosition.
  - apply read_only_getCoordinate.
  - apply read_only_getCoordinate.
  - apply read_only_checkRange.
  - apply read_only_checkRange.
  - apply read_only_ret.
  - apply read_only_ret.
Qed.

(** * Further properties of the accessors *)

(** ** More on running and on floats *)

Lemma out_bind_Ok {A B} (m : M A) (f : A → M B) w a w' l :
  m w = Result (Ok a) w' l → out ((m ≫= f) w) = out (f a w').
Proof. intros H. by rewrite (bind_Ok _ _ _ _ _ _ H). Qed.

Lemma out_bind_Undefined {A B} (m : M A) (f : A → M B) w :
  out (m w) = Undefined → out ((m ≫= f) w) = Undefined.
Proof. intros H. unfold mbind, M_bind. by rewrite H. Qed.



Lemma load_float_None w p :
  read_float (memory w) p = None → out (load_float p w) = Undefined.
Proof.
  unfold read_float, load_float, mbind, M_bind, load_byte. intros H.
  destruct (memory w !! p); simpl in *; [|done].
  destruct (memory w !! (p + 1)); simpl in *; [|done].
  destruct (memory w !! (p + 2)); simpl in *; [|done].
  by destruct (memory w !! (p + 3)); simpl in *.
Qed.

Lemma store_byte_same w a b :
  memory w !! a = Some b → store_byte a b w = Result (Ok tt) w [Store a b].
Proof.
  intros H. unfold store_byte. rewrite H, insert_id by done.
  by rewrite set_memory_id.
Qed.

Lemma read_float_bytes (m : gmap N byte) p f :
  read_float m p = Some f →
  m !! p = Some (byte0 f) ∧ m !! (p + 1) = Some (byte1 f)
  ∧ m !! (p + 2) = Some (byte2 f) ∧ m !! (p + 3) = Some (byte3 f).
Proof.
  unfold read_float. intros H.
  destruct (m !! p); simpl in *; [|done].
  destruct (m !! (p + 1)); simpl in *; [|done].
  destruct (m !! (p + 2)); simpl in *; [|done].
  destruct (m !! (p + 3)); simpl in *; [|done].
  by injection H as <-.
Qed.

Lemma store_float_same w p f :
  read_float (memory w) p = Some f →
  store_float p f w = Result (Ok tt) w (float_stores p f).
Proof.
  intros (H0 & H1 & H2 & H3)%read_float_bytes. unfold store_float.
  rewrite (bind_Ok _ _ _ _ _ _ (store_byte_same w _ _ H0)).
  rewrite (bind_Ok _ _ _ _ _ _ (store_byte_same w _ _ H1)).
  rewrite (bind_Ok _ _ _ _ _ _ (store_byte_same w _ _ H2)).
  by rewrite (store_byte_same w _ _ H3).
Qed.

Lemma read_float_allocated (m : gmap N byte) p f :
  read_float m p = Some f → allocated m p 4.
Proof.
  intros (H0 & H1 & H2 & H3)%read_float_bytes. apply allocated_intro.
  intros k Hk.
  assert (k = 0 ∨ k = 1 ∨ k = 2 ∨ k = 3) as [-> | [-> | [-> | ->]]] by lia;
    rewrite ?N.add_0_r; eauto.
Qed.

Lemma write_float_again (m : gmap N byte) p f g :
  write_float p g (write_float p f m) = write_float p g m.
Proof.
  apply map_eq. intros x. unfold write_float.
  rewrite !lookup_insert. repeat case_decide; done.
Qed.

Lemma write_float_comm (m : gmap N byte) p q f g :
  p + 4 ≤ q ∨ q + 4 ≤ p →
  write_float p f (write_float q g m) = write_float q g (write_float p f m).
Proof.
  intros H. apply map_eq. intros x. unfold write_float.
  rewrite !lookup_insert. repeat case_decide; try done; lia.
Qed.



(** ** What a checked operation returns *)

Lemma checked_Ok {B} this (body : M B) index w v :
  out ((assertRange this index;; body) w) = Ok v → in_range w this index.
Proof.
  intros H. destruct (decide (in_range w this index)) as [|Hout]; [done|].
  exfalso. destruct (objects w !! vData this) as [vd|] eqn:Hlive.
  - rewrite (checked_outside this w vd Hlive) in H; [done|].
    apply N.le_ngt. intros Hlt. apply Hout. by exists vd.
  - by rewrite (bind_Undefined _ (λ _, body) w w []
                  (assertRange_dangling this w index Hlive)) in H.
Qed.

Section Outcome.
Context (w : world) (vd : MeshVertexData) (index : N).

Lemma getPosition_out (this : PositionAttributeAccessor) :
  objects w !! vData this = Some vd →
  index < getVertexCount vd →
  out (getPosition this index w)
  = from_option Ok Undefined
      (decode_position (memory w) (attribute_address this index)).
Proof.
  intros Hlive Hlt. unfold getPosition.
  rewrite (checked_inside this w vd Hlive) by done. unfold _ptr.
  rewrite (bind_silent (mret _) _ w _ eq_refl).
  fold (attribute_address this index).
  rewrite float_index_0, float_index_1, float_index_2. unfold decode_position.
  destruct (read_float _ (attribute_address this index)) as [x|] eqn:Hx;
    [|by apply out_bind_Undefined, load_float_None].
  rewrite (out_bind_Ok _ _ _ _ _ _ (load_float_Some _ _ _ Hx)).
  destruct (read_float _ (attribute_address this index + 4)) as [y|] eqn:Hy;
    [|by apply out_bind_Undefined, load_float_None].
  rewrite (out_bind_Ok _ _ _ _ _ _ (load_float_Some _ _ _ Hy)).
  destruct (read_float _ (attribute_address this index + 8)) as [z|] eqn:Hz;
    [|by apply out_bind_Undefined, load_float_None].
  by rewrite (out_bind_Ok _ _ _ _ _ _ (load_float_Some _ _ _ Hz)).
Qed.

Lemma getCoordinate_out (this : TexCoordAttributeAccessor) :
  objects w !! vData this = Some vd →
  index < getVertexCount vd →
  out (getCoordinate this index w)
  = from_option Ok Undefined
      (decode_coordinate (memory w) (attribute_address this index)).
Proof.
  intros Hlive Hlt. unfold getCoordinate.
  rewrite (checked_inside this w vd Hlive) by done. unfold _ptr.
  rewrite (bind_silent (mret _) _ w _ eq_refl).
  fold (attribute_address this index).
  rewrite float_index_0, float_index_1. unfold decode_coordinate.
  destruct (read_float _ (attribute_address this index)) as [x|] eqn:Hx;
    [|by apply out_bind_Undefined, load_float_None].
  rewrite (out_bind_Ok _ _ _ _ _ _ (load_float_Some _ _ _ Hx)).
  destruct (read_float _ (attribute_address this index + 4)) as [y|] eqn:Hy;
    [|by apply out_bind_Undefined, load_float_None].
  by rewrite (out_bind_Ok _ _ _ _ _ _ (load_float_Some _ _ _ Hy)).
Qed.

End Outcome.

Lemma decode_position_floats (m : gmap N byte) a p :
  decode_position m a = Some p →
  read_float m a = Some (vec3_x p)
  ∧ read_float m (a + 4) = Some (vec3_y p)
  ∧ read_float m (a + 8) = Some (vec3_z p).
Proof.
  unfold decode_position. intros H.
  destruct (read_float m a); simpl in *; [|done].
  destruct (read_float m (a + 4)); simpl in *; [|done].
  destruct (read_float m (a + 8)); simpl in *; [|done].
  by injection H as <-.
Qed.

Lemma decode_coordinate_floats (m : gmap N byte) a p :
  decode_coordinate m a = Some p →
  read_float m a = Some (vec2_x p) ∧ read_float m (a + 4) = Some (vec2_y p).
Proof.
  unfold decode_coordinate. intros H.
  destruct (read_float m a); simpl in *; [|done].
  destruct (read_float m (a + 4)); simpl in *; [|done].
  by injection H as <-.
Qed.

(** Decoding looks at the bytes of the vector only. *)
Lemma read_float_agree (m m' : gmap N byte) p :
  (∀ x, within p 4 x → m' !! x = m !! x) → read_float m' p = read_float m p.
Proof.
  intros H. unfold read_float.
  rewrite (H p), (H (p + 1)), (H (p + 2)), (H (p + 3));
    [done|unfold within; lia..].
Qed.

Lemma decode_position_agree (m m' : gmap N byte) a :
  (∀ x, within a 12 x → m' !! x = m !! x) →
  decode_position m' a = decode_position m a.
Proof.
  intros H. unfold decode_position.
  rewrite (read_float_agree m m' a), (read_float_agree m m' (a + 4)),
    (read_float_agree m m' (a + 8)); [done|..];
    intros x Hx; apply H; unfold within in *; lia.
Qed.

Lemma decode_coordinate_agree (m m' : gmap N byte) a :
  (∀ x, within a 8 x → m' !! x = m !! x) →
  decode_coordinate m' a = decode_coordinate m a.
Proof.
  intros H. unfold decode_coordinate.
  rewrite (read_float_agree m m' a), (read_float_agree m m' (a + 4)); [done|..];
    intros x Hx; apply H; unfold within in *; lia.
Qed.

(** ** What the operations never do *)

Section Never.
Context {A B : Type}.

Lemma never_throws_ret (a : A) : never_throws (mret a).
Proof. by intros w e. Qed.

Lemma never_throws_bind (m : M A) (f : A → M B) :
  never_throws m → (∀ a, never_throws (f a)) → never_throws (m ≫= f).
Proof.
  intros Hm Hf w e. unfold mbind, M_bind.
  destruct (out (m w)) as [a| |] eqn:Hout; simpl; [apply Hf| |done].
  by destruct (Hm w e0).
Qed.




End Never.

Lemma never_throws_load_float p : never_throws (load_float p).
Proof.
  unfold load_float.
  repeat (apply never_throws_bind;
          [intros w e; unfold load_byte; by destruct (memory w !! _)|intros ?]).
  apply never_throws_ret.
Qed.

Lemma never_throws_store_byte a b : never_throws (store_byte a b).
Proof. intros w e. unfold store_byte. by destruct (memory w !! a). Qed.

Lemma never_throws_store_float p f : never_throws (store_float p f).
Proof.
  unfold store_float.
  repeat (apply never_throws_bind; [apply never_throws_store_byte|intros ?]).
  apply never_throws_store_byte.
Qed.





(** A checked operation throws for one reason only. *)
Lemma checked_Throw {B} this (body : M B) index w e :
  never_throws body →
  out ((assertRange this index;; body) w) = Throw e →
  ∃ vd, objects w !! vData this = Some vd
        ∧ getVertexCount vd ≤ index
        ∧ e = RangeError index (getVertexCount vd).
Proof.
  intros Hbody H. destruct (objects w !! vData this) as [vd|] eqn:Hlive.
  - exists vd. destruct (N.le_gt_cases (getVertexCount vd) index) as [Hge|Hlt].
    + rewrite (checked_outside this w vd Hlive) in H by done.
      simpl in H. by simplify_eq.
    + rewrite (checked_inside this w vd Hlive) in H by done.
      by destruct (Hbody w e).
  - by rewrite (bind_Undefined _ (λ _, body) w w []
                  (assertRange_dangling this w index Hlive)) in H.
Qed.

(** ** Writing and reading whole vectors *)

Lemma decode_write_position (m : gmap N byte) a p :
  decode_position (write_position a p m) a = Some p.
Proof.
  unfold decode_position, write_position.
  rewrite (read_write_float_ne _ (a + 8) a), (read_write_float_ne _ (a + 4) a),
    read_write_float_eq by lia.
  rewrite (read_write_float_ne _ (a + 8) (a + 4)), read_write_float_eq by lia.
  rewrite read_write_float_eq. by destruct p.
Qed.

Lemma decode_write_coordinate (m : gmap N byte) a p :
  decode_coordinate (write_coordinate a p m) a = Some p.
Proof.
  unfold decode_coordinate, write_coordinate.
  rewrite (read_write_float_ne _ (a + 4) a), read_write_float_eq by lia.
  rewrite read_write_float_eq. by destruct p.
Qed.

Lemma write_position_allocated (m : gmap N byte) a p b n :
  allocated m b n → allocated (write_position a p m) b n.
Proof. intros H. unfold write_position. by do 3 apply write_float_allocated. Qed.

Lemma write_coordinate_allocated (m : gmap N byte) a p b n :
  allocated m b n → allocated (write_coordinate a p m) b n.
Proof. intros H. unfold write_coordinate. by do 2 apply write_float_allocated. Qed.

Lemma write_position_again (m : gmap N byte) a p q :
  write_position a q (write_position a p m) = write_position a q m.
Proof.
  unfold write_position.
  rewrite (write_float_comm _ a (a + 8)), (write_float_comm _ a (a + 4)),
    write_float_again by lia.
  rewrite (write_float_comm _ (a + 4) (a + 8)), write_float_again by lia.
  by rewrite write_float_again.
Qed.

Lemma write_coordinate_again (m : gmap N byte) a p q :
  write_coordinate a q (write_coordinate a p m) = write_coordinate a q m.
Proof.
  unfold write_coordinate.
  rewrite (write_float_comm _ a (a + 4)), write_float_again by lia.
  by rewrite write_float_again.
Qed.

Lemma write_position_comm (m : gmap N byte) a b p q :
  a + 12 ≤ b ∨ b + 12 ≤ a →
  write_position a p (write_position b q m)
  = write_position b q (write_position a p m).
Proof.
  intros H. unfold write_position.
  rewrite (write_float_comm _ a (b + 8)), (write_float_comm _ a (b + 4)),
    (write_float_comm _ a b) by lia.
  rewrite (write_float_comm _ (a + 4) (b + 8)), (write_float_comm _ (a + 4) (b + 4)),
    (write_float_comm _ (a + 4) b) by lia.
  rewrite (write_float_comm _ (a + 8) (b + 8)), (write_float_comm _ (a + 8) (b + 4)),
    (write_float_comm _ (a + 8) b) by lia.
  done.
Qed.

Lemma write_coordinate_comm (m : gmap N byte) a b p q :
  a + 8 ≤ b ∨ b + 8 ≤ a →
  write_coordinate a p (write_coordinate b q m)
  = write_coordinate b q (write_coordinate a p m).
Proof.
  intros H. unfold write_coordinate.
  rewrite (write_float_comm _ a (b + 4)), (write_float_comm _ a b) by lia.
  rewrite (write_float_comm _ (a + 4) (b + 4)), (write_float_comm _ (a + 4) b) by lia.
  done.
Qed.

Section Written.
Context (w : world) (vd : MeshVertexData) (index : N).

Lemma setPosition_final (this : PositionAttributeAccessor) p :
  objects w !! vData this = Some vd →
  index < getVertexCount vd →
  allocated (memory w) (attribute_address this index) 12 →
  out (setPosition this index p w) = Ok tt
  ∧ final (setPosition this index p w)
    = set_memory w (write_position (attribute_address this index) p (memory w)).
Proof.
  intros Hlive Hlt Ha.
  by rewrite (setPosition_writes w vd index this p Hlive Hlt Ha).
Qed.

Lemma setCoordinate_final (this : TexCoordAttributeAccessor) p :
  objects w !! vData this = Some vd →
  index < getVertexCount vd →
  allocated (memory w) (attribute_address this index) 8 →
  out (setCoordinate this index p w) = Ok tt
  ∧ final (setCoordinate this index p w)
    = set_memory w (write_coordinate (attribute_address this index) p (memory w)).
Proof.
  intros Hlive Hlt Ha.
  by rewrite (setCoordinate_writes w vd index this p Hlive Hlt Ha).
Qed.

Lemma setPosition_same (this : PositionAttributeAccessor) p :
  objects w !! vData this = Some vd →
  index < getVertexCount vd →
  decode_position (memory w) (attribute_address this index) = Some p →
  out (setPosition this index p w) = Ok tt
  ∧ final (setPosition this index p w) = w.
Proof.
  intros Hlive Hlt (Hx & Hy & Hz)%decode_position_floats. unfold setPosition.
  rewrite (checked_inside this w vd Hlive) by done. unfold _ptr.
  rewrite (bind_silent (mret _) _ w _ eq_refl).
  fold (attribute_address this index).
  rewrite float_index_0, float_index_1, float_index_2.
  rewrite (bind_Ok _ _ _ _ _ _ (store_float_same w _ _ Hx)).
  rewrite (bind_Ok _ _ _ _ _ _ (store_float_same w _ _ Hy)).
  by rewrite (store_float_same w _ _ Hz).
Qed.

Lemma setCoordinate_same (this : TexCoordAttributeAccessor) p :
  objects w !! vData this = Some vd →
  index < getVertexCount vd →
  decode_coordinate (memory w) (attribute_address this index) = Some p →
  out (setCoordinate this index p w) = Ok tt
  ∧ final (setCoordinate this index p w) = w.
Proof.
  intros Hlive Hlt (Hx & Hy)%decode_coordinate_floats. unfold setCoordinate.
  rewrite (checked_inside this w vd Hlive) by done. unfold _ptr.
  rewrite (bind_silent (mret _) _ w _ eq_refl).
  fold (attribute_address this index).
  rewrite float_index_0, float_index_1.
  rewrite (bind_Ok _ _ _ _ _ _ (store_float_same w _ _ Hx)).
  by rewrite (store_float_same w _ _ Hy).
Qed.

End Written.

Lemma out_bind_final {A B} (m : M A) (f : A → M B) w a :
  out (m w) = Ok a →
  out ((m ≫= f) w) = out (f a (final (m w)))
  ∧ final ((m ≫= f) w) = final (f a (final (m w))).
Proof. intros H. unfold mbind, M_bind. by rewrite H. Qed.

Lemma vertices_disjoint w vd (this : VertexAttributeAccessor) n i j x :
  views w this vd n →
  i < getVertexCount vd → j < getVertexCount vd → i ≠ j →
  within (attribute_address this i) n x →
  ¬ within (attribute_address this j) n x.
Proof.
  intros Hthis Hi Hj Hne.
  rewrite (views_address w this vd n Hthis i Hi).
  rewrite (views_address w this vd n Hthis j Hj).
  pose proof (views_fits _ _ _ _ Hthis) as Hn.
  rewrite (views_stride _ _ _ _ Hthis) in Hn.
  unfold within. set (S := getVertexSize (getVertexDescription vd)) in *.
  destruct (N.lt_trichotomy i j) as [Hlt|[->|Hgt]]; [|done|].
  - assert (i * S + S ≤ j * S) by nia. lia.
  - assert (j * S + S ≤ i * S) by nia. lia.
Qed.

Lemma views_inside_storage w vd (this : VertexAttributeAccessor) n index x :
  views w this vd n →
  index < getVertexCount vd →
  within (attribute_address this index) n x →
  within (data vd) (storage_size vd) x.
Proof.
  intros Hthis Hlt. rewrite (views_address w this vd n Hthis index Hlt).
  pose proof (views_fits _ _ _ _ Hthis) as Hn.
  rewrite (views_stride _ _ _ _ Hthis) in Hn.
  unfold within, storage_size.
  set (S := getVertexSize (getVertexDescription vd)) in *.
  assert (index * S + S ≤ getVertexCount vd * S) by nia. lia.
Qed.

Lemma new_PositionAttributeAccessor_live w r vd attr :
  objects w !! r = Some vd →
  new_PositionAttributeAccessor r attr w
  = Result (Ok {| position_base := accessor_of r vd attr |}) w [].
Proof.
  intros Hlive.
  unfold new_PositionAttributeAccessor, new_VertexAttributeAccessor, deref,
    mbind, M_bind. by rewrite Hlive.
Qed.

Lemma new_TexCoordAttributeAccessor_live w r vd attr :
  objects w !! r = Some vd →
  new_TexCoordAttributeAccessor r attr w
  = Result (Ok {| texcoord_base := accessor_of r vd attr |}) w [].
Proof.
  intros Hlive.
  unfold new_TexCoordAttributeAccessor, new_VertexAttributeAccessor, deref,
    mbind, M_bind. by rewrite Hlive.
Qed.

Lemma accessor_of_views w r vd attr n :
  objects w !! r = Some vd →
  getOffset attr + n ≤ getVertexSize (getVertexDescription vd) →
  storage_size vd < 2 ^ SIZE_WIDTH →
  views w (accessor_of r vd attr) vd n.
Proof. intros. by split. Qed.

Lemma demo_views_texcoord : views demo_world demo_texcoords demo_mesh 8.
Proof. split; compute_done. Defined.

(** * Further theorems *)

(** X1. An accessor built by the constructor over a live buffer whose storage
    is allocated, for an attribute that lies inside the vertex record, writes
    and reads back every vertex of the buffer: constructing it, setting the
    vector at a valid index and getting it again returns the vector set. *)
Theorem constructed_accessors_round_trip (w : world) (r : N)
    (vd : MeshVertexData) (attr : VertexAttribute) (index : N) :
  objects w !! r = Some vd →
  storage_allocated w vd →
  storage_size vd < 2 ^ SIZE_WIDTH →
  index < getVertexCount vd →
  (getOffset attr + 12 ≤ getVertexSize (getVertexDescription vd) →
   ∀ p, out ((this ← new_PositionAttributeAccessor r attr;
              setPosition this index p;; getPosition this index) w) = Ok p)
  ∧ (getOffset attr + 8 ≤ getVertexSize (getVertexDescription vd) →
     ∀ p, out ((this ← new_TexCoordAttributeAccessor r attr;
                setCoordinate this index p;; getCoordinate this index) w) = Ok p).
Proof.
  intros Hlive Hmem Hsize Hlt. split; intros Hfits p.
  - rewrite (bind_silent _ _ _ _ (new_PositionAttributeAccessor_live w r vd attr Hlive)).
    pose proof (accessor_of_views w r vd attr 12 Hlive Hfits Hsize) as Hviews.
    pose proof (views_allocated w _ vd 12 Hviews index Hmem Hlt) as Ha.
    set (this := {| position_base := accessor_of r vd attr |}) in *.
    destruct (setPosition_final w vd index this p Hlive Hlt Ha) as [Hout Hfin].
    destruct (out_bind_final (setPosition this index p)
                (λ _, getPosition this index) w tt Hout) as [-> _].
    rewrite Hfin, (getPosition_out (set_memory w _) vd index this Hlive Hlt). simpl.
    by rewrite decode_write_position.
  - rewrite (bind_silent _ _ _ _ (new_TexCoordAttributeAccessor_live w r vd attr Hlive)).
    pose proof (accessor_of_views w r vd attr 8 Hlive Hfits Hsize) as Hviews.
    pose proof (views_allocated w _ vd 8 Hviews index Hmem Hlt) as Ha.
    set (this := {| texcoord_base := accessor_of r vd attr |}) in *.
    destruct (setCoordinate_final w vd index this p Hlive Hlt Ha) as [Hout Hfin].
    destruct (out_bind_final (setCoordinate this index p)
                (λ _, getCoordinate this index) w tt Hout) as [-> _].
    rewrite Hfin, (getCoordinate_out (set_memory w _) vd index this Hlive Hlt). simpl.
    by rewrite decode_write_coordinate.
Qed.

Lemma constructed_accessors_round_trip_last_vertex :
  out ((this ← new_PositionAttributeAccessor 1 demo_position;
        setPosition this 9 (mkVec3 one two three);; getPosition this 9)
         demo_world)
  = Ok (mkVec3 one two three).
Proof.
  refine (proj1 (constructed_accessors_round_trip demo_world 1 demo_mesh
                   demo_position 9 eq_refl _ eq_refl eq_refl) _ _);
    compute_done.
Defined.

(** X2. Through an accessor that views an unaltered buffer, no get or set
    touches a byte outside the buffer's storage: every address loaded from or
    stored to lies between [data] and [data] plus vertex count times vertex
    size. *)
Theorem accesses_stay_inside_storage (w : world) (vd : MeshVertexData) (a : N) :
  (∀ (this : PositionAttributeAccessor) index,
     views w this vd 12 →
     a ∈ touched (getPosition this index w) →
     within (data vd) (storage_size vd) a)
  ∧ (∀ (this : PositionAttributeAccessor) index p,
       views w this vd 12 →
       a ∈ touched (setPosition this index p w) →
       within (data vd) (storage_size vd) a)
  ∧ (∀ (this : TexCoordAttributeAccessor) index,
       views w this vd 8 →
       a ∈ touched (getCoordinate this index w) →
       within (data vd) (storage_size vd) a)
  ∧ (∀ (this : TexCoordAttributeAccessor) index p,
       views w this vd 8 →
       a ∈ touched (setCoordinate this index p w) →
       within (data vd) (storage_size vd) a).
Proof.
  assert (∀ (this : VertexAttributeAccessor) n index B (body : M B),
            views w this vd n →
            confined (within (attribute_address this index) n)
              (assertRange this index;; body) →
            a ∈ touched ((assertRange this index;; body) w) →
            within (data vd) (storage_size vd) a) as Hin.
  { intros this n index B body Hviews Hconf Ha.
    destruct (checked_touches this body index w a Ha) as (vd' & Hlive & Hlt).
    rewrite (views_live _ _ _ _ Hviews) in Hlive. injection Hlive as <-.
    eapply views_inside_storage; [done..|].
    by eapply confined_touched. }
  split; [|split; [|split]]; intros this index.
  - intros Hviews. by apply (Hin this 12 index), confined_getPosition.
  - intros p Hviews. by apply (Hin this 12 index), confined_setPosition.
  - intros Hviews. by apply (Hin this 8 index), confined_getCoordinate.
  - intros p Hviews. by apply (Hin this 8 index), confined_setCoordinate.
Qed.

Lemma accesses_stay_inside_storage_last_byte :
  within (data demo_mesh) (storage_size demo_mesh) 4395.
Proof.
  apply (proj1 (proj2 (accesses_stay_inside_storage demo_world demo_mesh 4395))
           demo_positions 9 (mkVec3 one two three) demo_views_position).
  compute_done.
Defined.



(** X4. Setting a vertex to the vector just got from it succeeds and changes
    nothing: the world after the write is the world before. *)
Theorem writing_back_what_was_read (w : world) (index : N) :
  (∀ (this : PositionAttributeAccessor) p,
     out (getPosition this index w) = Ok p →
     out (setPosition this index p w) = Ok tt
     ∧ final (setPosition this index p w) = w)
  ∧ (∀ (this : TexCoordAttributeAccessor) p,
       out (getCoordinate this index w) = Ok p →
       out (setCoordinate this index p w) = Ok tt
       ∧ final (setCoordinate this index p w) = w).
Proof.
  split; intros this p Hget.
  - destruct (checked_Ok this _ index w p Hget) as (vd & Hlive & Hlt).
    rewrite (getPosition_out w vd index this Hlive Hlt) in Hget.
    apply (setPosition_same w vd index this p Hlive Hlt).
    destruct (decode_position _ _); simpl in Hget; by simplify_eq.
  - destruct (checked_Ok this _ index w p Hget) as (vd & Hlive & Hlt).
    rewrite (getCoordinate_out w vd index this Hlive Hlt) in Hget.
    apply (setCoordinate_same w vd index this p Hlive Hlt).
    destruct (decode_coordinate _ _); simpl in Hget; by simplify_eq.
Qed.

Lemma writing_back_what_was_read_vertex_3 :
  out (setPosition demo_positions 3
         (mkVec3 (Float x00 x00 x00 x00) (Float x00 x00 x00 x00) (Float x00 x00 x00 x00))
         demo_world) = Ok tt
  ∧ final (setPosition demo_positions 3
             (mkVec3 (Float x00 x00 x00 x00) (Float x00 x00 x00 x00) (Float x00 x00 x00 x00))
             demo_world) = demo_world.
Proof.
  apply (proj1 (writing_back_what_was_read demo_world 3) demo_positions).
  compute_done.
Defined.

(** X5. Of two writes to the same vertex the second wins: after both, the
    world is what the second write alone would have left. *)
Theorem second_write_wins (w : world) (vd : MeshVertexData) (index : N) :
  index < getVertexCount vd →
  (∀ (this : PositionAttributeAccessor) p q,
     objects w !! vData this = Some vd →
     allocated (memory w) (attribute_address this index) 12 →
     out ((setPosition this index p;; setPosition this index q) w) = Ok tt
     ∧ final ((setPosition this index p;; setPosition this index q) w)
       = final (setPosition this index q w))
  ∧ (∀ (this : TexCoordAttributeAccessor) p q,
       objects w !! vData this = Some vd →
       allocated (memory w) (attribute_address this index) 8 →
       out ((setCoordinate this index p;; setCoordinate this index q) w) = Ok tt
       ∧ final ((setCoordinate this index p;; setCoordinate this index q) w)
         = final (setCoordinate this index q w)).
Proof.
  intros Hlt. split; intros this p q Hlive Ha.
  - destruct (setPosition_final w vd index this p Hlive Hlt Ha) as [Hout Hfin].
    destruct (out_bind_final (setPosition this index p)
                (λ _, setPosition this index q) w tt Hout) as [-> ->].
    destruct (setPosition_final w vd index this q Hlive Hlt Ha) as [_ ->].
    rewrite Hfin.
    destruct (setPosition_final (set_memory w
                (write_position (attribute_address this index) p (memory w)))
                vd index this q Hlive Hlt) as [-> ->].
    { simpl. by apply write_position_allocated. }
    split; [done|]. simpl. unfold set_memory. simpl.
    by rewrite write_position_again.
  - destruct (setCoordinate_final w vd index this p Hlive Hlt Ha) as [Hout Hfin].
    destruct (out_bind_final (setCoordinate this index p)
                (λ _, setCoordinate this index q) w tt Hout) as [-> ->].
    destruct (setCoordinate_final w vd index this q Hlive Hlt Ha) as [_ ->].
    rewrite Hfin.
    destruct (setCoordinate_final (set_memory w
                (write_coordinate (attribute_address this index) p (memory w)))
                vd index this q Hlive Hlt) as [-> ->].
    { simpl. by apply write_coordinate_allocated. }
    split; [done|]. simpl. unfold set_memory. simpl.
    by rewrite write_coordinate_again.
Qed.

Lemma second_write_wins_vertex_3 :
  out ((setPosition demo_positions 3 (mkVec3 one one one);;
        setPosition demo_positions 3 (mkVec3 one two three)) demo_world) = Ok tt
  ∧ final ((setPosition demo_positions 3 (mkVec3 one one one);;
            setPosition demo_positions 3 (mkVec3 one two three)) demo_world)
    = final (setPosition demo_positions 3 (mkVec3 one two three) demo_world).
Proof.
  refine (proj1 (second_write_wins demo_world demo_mesh 3 eq_refl)
            demo_positions _ _ eq_refl _).
  compute_done.
Defined.

(** X6. Writes to two different vertices commute: in either order they
    succeed and leave the same world. *)
Theorem writes_to_different_vertices_commute (w : world) (vd : MeshVertexData)
    (i j : N) :
  storage_allocated w vd →
  i < getVertexCount vd →
  j < getVertexCount vd →
  i ≠ j →
  (∀ (this : PositionAttributeAccessor) p q,
     views w this vd 12 →
     out ((setPosition this i p;; setPosition this j q) w) = Ok tt
     ∧ final ((setPosition this i p;; setPosition this j q) w)
       = final ((setPosition this j q;; setPosition this i p) w))
  ∧ (∀ (this : TexCoordAttributeAccessor) p q,
       views w this vd 8 →
       out ((setCoordinate this i p;; setCoordinate this j q) w) = Ok tt
       ∧ final ((setCoordinate this i p;; setCoordinate this j q) w)
         = final ((setCoordinate this j q;; setCoordinate this i p) w)).
Proof.
  intros Hmem Hi Hj Hne. split; intros this p q Hviews.
  - pose proof (views_live _ _ _ _ Hviews) as Hlive.
    pose proof (views_allocated w this vd 12 Hviews i Hmem Hi) as Hai.
    pose proof (views_allocated w this vd 12 Hviews j Hmem Hj) as Haj.
    assert (attribute_address this i + 12 ≤ attribute_address this j
            ∨ attribute_address this j + 12 ≤ attribute_address this i) as Hapart.
    { pose proof (vertices_disjoint w vd this 12 i j (attribute_address this i)
                    Hviews Hi Hj Hne) as H1.
      pose proof (vertices_disjoint w vd this 12 j i (attribute_address this j)
                    Hviews Hj Hi (not_eq_sym Hne)) as H2.
      unfold within in *. lia. }
    destruct (setPosition_final w vd i this p Hlive Hi Hai) as [Hpo Hpf].
    destruct (setPosition_final w vd j this q Hlive Hj Haj) as [Hqo Hqf].
    destruct (out_bind_final _ (λ _, setPosition this j q) w tt Hpo) as [-> ->].
    destruct (out_bind_final _ (λ _, setPosition this i p) w tt Hqo) as [_ ->].
    rewrite Hpf, Hqf.
    destruct (setPosition_final (set_memory w
                (write_position (attribute_address this i) p (memory w)))
                vd j this q Hlive Hj) as [-> ->].
    { simpl. by apply write_position_allocated. }
    destruct (setPosition_final (set_memory w
                (write_position (attribute_address this j) q (memory w)))
                vd i this p Hlive Hi) as [_ ->].
    { simpl. by apply write_position_allocated. }
    split; [done|]. unfold set_memory. simpl.
    by rewrite (write_position_comm _ (attribute_address this j)
                  (attribute_address this i)) by lia.
  - pose proof (views_live _ _ _ _ Hviews) as Hlive.
    pose proof (views_allocated w this vd 8 Hviews i Hmem Hi) as Hai.
    pose proof (views_allocated w this vd 8 Hviews j Hmem Hj) as Haj.
    assert (attribute_address this i + 8 ≤ attribute_address this j
            ∨ attribute_address this j + 8 ≤ attribute_address this i) as Hapart.
    { pose proof (vertices_disjoint w vd this 8 i j (attribute_address this i)
                    Hviews Hi Hj Hne) as H1.
      pose proof (vertices_disjoint w vd this 8 j i (attribute_address this j)
                    Hviews Hj Hi (not_eq_sym Hne)) as H2.
      unfold within in *. lia. }
    destruct (setCoordinate_final w vd i this p Hlive Hi Hai) as [Hpo Hpf].
    destruct (setCoordinate_final w vd j this q Hlive Hj Haj) as [Hqo Hqf].
    destruct (out_bind_final _ (λ _, setCoordinate this j q) w tt Hpo) as [-> ->].
    destruct (out_bind_final _ (λ _, setCoordinate this i p) w tt Hqo) as [_ ->].
    rewrite Hpf, Hqf.
    destruct (setCoordinate_final (set_memory w
                (write_coordinate (attribute_address this i) p (memory w)))
                vd j this q Hlive Hj) as [-> ->].
    { simpl. by apply write_coordinate_allocated. }
    destruct (setCoordinate_final (set_memory w
                (write_coordinate (attribute_address this j) q (memory w)))
                vd i this p Hlive Hi) as [_ ->].
    { simpl. by apply write_coordinate_allocated. }
    split; [done|]. unfold set_memory. simpl.
    by rewrite (write_coordinate_comm _ (attribute_address this j)
                  (attribute_address this i)) by lia.
Qed.

Lemma writes_to_different_vertices_commute_3_4 :
  out ((setPosition demo_positions 3 (mkVec3 one two three);;
        setPosition demo_positions 4 (mkVec3 three two one)) demo_world) = Ok tt
  ∧ final ((setPosition demo_positions 3 (mkVec3 one two three);;
            setPosition demo_positions 4 (mkVec3 three two one)) demo_world)
    = final ((setPosition demo_positions 4 (mkVec3 three two one);;
              setPosition demo_positions 3 (mkVec3 one two three)) demo_world).
Proof.
  refine (proj1 (writes_to_different_vertices_commute demo_world demo_mesh 3 4
                   _ eq_refl eq_refl _) demo_positions _ _ demo_views_position);
    compute_done.
Defined.

(** X7. The only exception a get or set throws is the RangeError of the
    failed check: if one of them throws, the buffer is live, the index is at
    or beyond its vertex count, and the exception carries that index and
    that count. *)
Theorem only_range_errors (w : world) (index : N) (e : exception) :
  (∀ (this : PositionAttributeAccessor),
     out (getPosition this index w) = Throw e →
     ∃ vd, objects w !! vData this = Some vd ∧ getVertexCount vd ≤ index
           ∧ e = RangeError index (getVertexCount vd))
  ∧ (∀ (this : PositionAttributeAccessor) p,
       out (setPosition this index p w) = Throw e →
       ∃ vd, objects w !! vData this = Some vd ∧ getVertexCount vd ≤ index
             ∧ e = RangeError index (getVertexCount vd))
  ∧ (∀ (this : TexCoordAttributeAccessor),
       out (getCoordinate this index w) = Throw e →
       ∃ vd, objects w !! vData this = Some vd ∧ getVertexCount vd ≤ index
             ∧ e = RangeError index (getVertexCount vd))
  ∧ (∀ (this : TexCoordAttributeAccessor) p,
       out (setCoordinate this index p w) = Throw e →
       ∃ vd, objects w !! vData this = Some vd ∧ getVertexCount vd ≤ index
             ∧ e = RangeError index (getVertexCount vd)).
Proof.
  split; [|split; [|split]]; intros this; [|intros p| |intros p];
    apply checked_Throw;
    (apply never_throws_bind; [apply never_throws_ret|intros v]);
    repeat (apply never_throws_bind;
            [first [apply never_throws_load_float|apply never_throws_store_float]
            |intros ?]);
    first [apply never_throws_ret|apply never_throws_store_float].
Qed.

Lemma only_range_errors_index_10 :
  ∃ vd, objects demo_world !! vData demo_positions = Some vd
        ∧ getVertexCount vd ≤ 10
        ∧ RangeError 10 10 = RangeError 10 (getVertexCount vd).
Proof.
  apply (proj1 (only_range_errors demo_world 10 (RangeError 10 10)) demo_positions).
  reflexivity.
Defined.




(** X10. At a valid index [getPosition] returns (x, y, z), the floats stored
    at the attribute's address, four bytes later and eight bytes later, and
    changes nothing; [setPosition] stores the x, y and z of its argument at
    these three places and changes nothing else. *)
Theorem position_contract (this : PositionAttributeAccessor) w vd index :
  objects w !! vData this = Some vd →
  index < getVertexCount vd →
  (∀ x y z,
     read_float (memory w) (attribute_address this index) = Some x →
     read_float (memory w) (attribute_address this index + 4) = Some y →
     read_float (memory w) (attribute_address this index + 8) = Some z →
     out (getPosition this index w) = Ok (mkVec3 x y z)
     ∧ final (getPosition this index w) = w)
  ∧ (∀ p,
       allocated (memory w) (attribute_address this index) 12 →
       out (setPosition this index p w) = Ok tt
       ∧ final (setPosition this index p w)
         = set_memory w
             (write_float (attribute_address this index + 8) (vec3_z p)
                (write_float (attribute_address this index + 4) (vec3_y p)
                   (write_float (attribute_address this index) (vec3_x p)
                      (memory w))))).
Proof.
  intros Hlive Hlt. split.
  - intros x y z Hx Hy Hz.
    by rewrite (getPosition_reads w vd index this x y z Hlive Hlt Hx Hy Hz).
  - intros p Ha. by rewrite (setPosition_writes w vd index this p Hlive Hlt Ha).
Qed.

Lemma position_contract_vertex_3 :
  out (setPosition demo_positions 3 (mkVec3 one two three) demo_world) = Ok tt
  ∧ final (setPosition demo_positions 3 (mkVec3 one two three) demo_world)
    = set_memory demo_world
        (write_float (attribute_address demo_positions 3 + 8) three
           (write_float (attribute_address demo_positions 3 + 4) two
              (write_float (attribute_address demo_positions 3) one
                 (memory demo_world)))).
Proof.
  refine (proj2 (position_contract demo_positions demo_world demo_mesh 3
                   eq_refl eq_refl) (mkVec3 one two three) _).
  compute_done.
Defined.

(** X11. Positions and texture coordinates that do not overlap inside the
    vertex record do not interfere: setting a position, at any index, does
    not change the coordinate got for any vertex, and setting a coordinate
    does not change the position got for any vertex. *)
Theorem positions_and_coordinates_do_not_interfere (w : world)
    (vd : MeshVertexData) (positions : PositionAttributeAccessor)
    (coordinates : TexCoordAttributeAccessor) (index j : N) :
  views w positions vd 12 →
  views w coordinates vd 8 →
  getOffset (attribute positions) + 12 ≤ getOffset (attribute coordinates)
  ∨ getOffset (attribute coordinates) + 8 ≤ getOffset (attribute positions) →
  j < getVertexCount vd →
  (∀ p, out (getCoordinate coordinates j (final (setPosition positions index p w)))
        = out (getCoordinate coordinates j w))
  ∧ (∀ q, out (getPosition positions j (final (setCoordinate coordinates index q w)))
          = out (getPosition positions j w)).
Proof.
  intros Hpos Hcoord Hoff Hj.
  pose proof (views_live _ _ _ _ Hpos) as Hlivep.
  pose proof (views_live _ _ _ _ Hcoord) as Hlivec.
  split.
  - intros p.
    destruct (confined_setPosition positions index p w) as (Hobj & _ & _).
    rewrite (getCoordinate_out w vd j coordinates Hlivec Hj).
    rewrite (getCoordinate_out _ vd j coordinates) by (by rewrite ?Hobj).
    rewrite (decode_coordinate_agree (memory w)); [done|].
    intros x Hx.
    replace x with (attribute_address coordinates j
                    + (x - attribute_address coordinates j))
      by (unfold within in Hx; lia).
    apply (checked_write_frame w vd positions coordinates _ 12 8 index j);
      [apply (confined_setPosition positions index p)|done..|].
    unfold within in Hx. lia.
  - intros q.
    destruct (confined_setCoordinate coordinates index q w) as (Hobj & _ & _).
    rewrite (getPosition_out w vd j positions Hlivep Hj).
    rewrite (getPosition_out _ vd j positions) by (by rewrite ?Hobj).
    rewrite (decode_position_agree (memory w)); [done|].
    intros x Hx.
    replace x with (attribute_address positions j
                    + (x - attribute_address positions j))
      by (unfold within in Hx; lia).
    apply (checked_write_frame w vd coordinates positions _ 8 12 index j);
      [apply (confined_setCoordinate coordinates index q)|done|done|lia|done|].
    unfold within in Hx. lia.
Qed.

Lemma positions_and_coordinates_do_not_interfere_vertex_3 :
  out (getCoordinate demo_texcoords 3
         (final (setPosition demo_positions 3 (mkVec3 one two three) demo_world)))
  = out (getCoordinate demo_texcoords 3 demo_world).
Proof.
  refine (proj1 (positions_and_coordinates_do_not_interfere demo_world demo_mesh
                   demo_positions demo_texcoords 3 3
                   demo_views_position demo_views_texcoord _ eq_refl) _).
  left. compute_done.
Defined.

(** X12. Accessors keep no copy of the data: a second accessor, built for the
    same attribute after a first one has written a vertex, gets the vector
    the first one set. *)
Theorem later_accessor_sees_the_write (w : world) (r : N)
    (vd : MeshVertexData) (attr : VertexAttribute) (index : N) :
  objects w !! r = Some vd →
  storage_allocated w vd →
  storage_size vd < 2 ^ SIZE_WIDTH →
  index < getVertexCount vd →
  (getOffset attr + 12 ≤ getVertexSize (getVertexDescription vd) →
   ∀ p, out ((first ← new_PositionAttributeAccessor r attr;
              setPosition first index p;;
              second ← new_PositionAttributeAccessor r attr;
              getPosition second index) w) = Ok p)
  ∧ (getOffset attr + 8 ≤ getVertexSize (getVertexDescription vd) →
     ∀ p, out ((first ← new_TexCoordAttributeAccessor r attr;
                setCoordinate first index p;;
                second ← new_TexCoordAttributeAccessor r attr;
                getCoordinate second index) w) = Ok p).
Proof.
  intros Hlive Hmem Hsize Hlt. split; intros Hfits p.
  - rewrite (bind_silent _ _ _ _ (new_PositionAttributeAccessor_live w r vd attr Hlive)).
    pose proof (accessor_of_views w r vd attr 12 Hlive Hfits Hsize) as Hviews.
    pose proof (views_allocated w _ vd 12 Hviews index Hmem Hlt) as Ha.
    set (this := {| position_base := accessor_of r vd attr |}) in *.
    destruct (setPosition_final w vd index this p Hlive Hlt Ha) as [Hout Hfin].
    destruct (out_bind_final (setPosition this index p)
                (λ _, second ← new_PositionAttributeAccessor r attr;
                      getPosition second index) w tt Hout) as [-> _].
    rewrite Hfin.
    rewrite (bind_silent _ _ _ _
               (new_PositionAttributeAccessor_live (set_memory w _) r vd attr Hlive)).
    fold this.
    rewrite (getPosition_out (set_memory w _) vd index this Hlive Hlt). simpl.
    by rewrite decode_write_position.
  - rewrite (bind_silent _ _ _ _ (new_TexCoordAttributeAccessor_live w r vd attr Hlive)).
    pose proof (accessor_of_views w r vd attr 8 Hlive Hfits Hsize) as Hviews.
    pose proof (views_allocated w _ vd 8 Hviews index Hmem Hlt) as Ha.
    set (this := {| texcoord_base := accessor_of r vd attr |}) in *.
    destruct (setCoordinate_final w vd index this p Hlive Hlt Ha) as [Hout Hfin].
    destruct (out_bind_final (setCoordinate this index p)
                (λ _, second ← new_TexCoordAttributeAccessor r attr;
                      getCoordinate second index) w tt Hout) as [-> _].
    rewrite Hfin.
    rewrite (bind_silent _ _ _ _
               (new_TexCoordAttributeAccessor_live (set_memory w _) r vd attr Hlive)).
    fold this.
    rewrite (getCoordinate_out (set_memory w _) vd index this Hlive Hlt). simpl.
    by rewrite decode_write_coordinate.
Qed.

Lemma later_accessor_sees_the_write_texcoord :
  out ((first ← new_TexCoordAttributeAccessor 1 demo_texcoord;
        setCoordinate first 0 (mkVec2 one two);;
        second ← new_TexCoordAttributeAccessor 1 demo_texcoord;
        getCoordinate second 0) demo_world)
  = Ok (mkVec2 one two).
Proof.
  refine (proj2 (later_accessor_sees_the_write demo_world 1 demo_mesh
                   demo_texcoord 0 eq_refl _ eq_refl eq_refl) _ _);
    compute_done.
Defined.
